(** * Genetic jazz harmonizer: metrics, fitness evaluation and genetic search

    A shallow embedding of [metrics.py] and [geneticmelodyjazzharmonizer.py].

    Conventions of the embedding:
    - a chord name, a pitch and a note letter are Python [str] values; they
      are modelled as [string], holding the UTF-8 bytes of the source text
      (two Python strings are equal exactly when their UTF-8 bytes are);
    - Python numbers (the [int] and [float] scores, weights and fitness
      values) are modelled as exact rationals [Qc]; rounding of binary
      floating point is not modelled. A score that a loop accumulates by
      repeated addition is therefore characterised by its outcome, its sign
      and its order against other scores, which rounding keeps, and not by
      a closed form, which holds in exact arithmetic only (the lemmas named
      [_exact] and [_loop] are such forms, used as steps of the proofs);
    - a Python exception that leaves a function is the [Err] outcome of the
      [result] type; evaluation order decides which exception is raised;
    - dictionaries are [gmap]s, sets are [gset]s, lists are [list]s;
    - the global random generator is a random source threaded through the
      search engine as explicit state. *)

From Stdlib Require Import ZArith QArith Qcanon Lia.
From stdpp Require Import numbers gmap strings list fin_maps.

Open Scope string_scope.
Open Scope Z_scope.

(** ** Python outcomes *)

Inductive exn : Type :=
| ZeroDivisionError
| KeyError
| IndexError
| ValueError.

Inductive result (A : Type) : Type :=
| Ok (a : A)
| Err (e : exn).
Arguments Ok {A} a.
Arguments Err {A} e.

Definition bind {A B} (r : result A) (k : A -> result B) : result B :=
  match r with
  | Ok a => k a
  | Err e => Err e
  end.

Notation "'let*' x := e 'in' k" := (bind e (fun x => k))
  (at level 10, x name, e at level 100, k at level 200).

Definition is_ok {A} (r : result A) : Prop := exists a, r = Ok a.
Definition raises {A} (r : result A) : Prop := exists e, r = Err e.

(** [for x in xs: s = body(x, s)] with exceptions. *)
Fixpoint for_each {A S} (xs : list A) (body : A -> S -> result S) (s : S)
  : result S :=
  match xs with
  | [] => Ok s
  | x :: rest => let* s' := body x s in for_each rest body s'
  end.

(** [range(n)] for a Python integer [n]: empty when [n <= 0]. *)
Definition range (n : Z) : list nat := seq 0 (Z.to_nat n).

(** [xs[i]] for a non-negative index. *)
Definition index {A} (xs : list A) (i : nat) : result A :=
  match xs !! i with
  | Some x => Ok x
  | None => Err IndexError
  end.

(** [xs[-1]]. *)
Definition index_last {A} (xs : list A) : result A :=
  match last xs with
  | Some x => Ok x
  | None => Err IndexError
  end.

(** [d[k]] on a dictionary. *)
Definition getitem {V} (d : gmap string V) (k : string) : result V :=
  match d !! k with
  | Some v => Ok v
  | None => Err KeyError
  end.

(** [d.get(k, default)]. *)
Definition dict_get {V} (d : gmap string V) (k : string) (default : V) : V :=
  match d !! k with
  | Some v => v
  | None => default
  end.

(** [a / b], true division. *)
Definition truediv (a b : Qc) : result Qc :=
  if decide (b = 0%Qc) then Err ZeroDivisionError else Ok (a / b)%Qc.

(** Integers enter arithmetic through [Qc_of_Z]. *)
Definition nat2Qc (n : nat) : Qc := Qc_of_Z (Z.of_nat n).

(** [x in xs] for a list, [x in s] for a set. *)
Definition in_list (x : string) (xs : list string) : bool := bool_decide (x ∈ xs).
Definition in_set `{Countable K} (x : K) (s : gset K) : bool := bool_decide (x ∈ s).

(** [xs[i:j]]. *)
Definition slice {A} (xs : list A) (i j : nat) : list A := take (j - i) (drop i xs).

(** [s[0]] for a string: its first character. In the UTF-8 bytes of a text
    a character is a leading byte followed by its continuation bytes, the
    bytes 80 to BF. *)
Definition is_continuation_byte (a : Ascii.ascii) : bool :=
  let n := Ascii.N_of_ascii a in ((128 <=? n) && (n <? 192))%N.

Fixpoint continuation_bytes (s : string) : string :=
  match s with
  | String a rest =>
      if is_continuation_byte a then String a (continuation_bytes rest)
      else EmptyString
  | EmptyString => EmptyString
  end.

Definition str_first (s : string) : result string :=
  match s with
  | EmptyString => Err IndexError
  | String a rest => Ok (String a (continuation_bytes rest))
  end.

(** ** Melody *)

Definition chord := string.
Definition note : Type := string * Z.

Record MelodyData := {
  notes : list note;
  duration : Z;
  number_of_bars : Z
}.

(** [sum(duration for _, duration in self.notes)] *)
Definition sum_durations (ns : list note) : Z :=
  foldl (fun acc n => acc + snd n) 0 ns.

(** [MelodyData(notes)]: the dataclass constructor followed by
    [__post_init__]. Python's [//] is floor division, as [Z.div] is for a
    positive divisor. *)
Definition MelodyData_init (ns : list note) : result MelodyData :=
  let d := sum_durations ns in
  Ok {| notes := ns; duration := d; number_of_bars := d / 4 |}.

(** ** Metrics *)

Module ChordMelodyCongruence.
(** The inner [while] loop for one chord. [rest] is [notes[melody_index:]];
    the loop consumes notes until four duration units are covered or the
    melody ends. *)
Fixpoint consume (chord_mappings : gmap string (list string)) (c : chord)
    (bar_duration : Z) (score : Z) (rest : list note)
  : result (Z * list note) :=
  match rest with
  | [] => Ok (score, [])
  | (pitch, d) :: rest' =>
      if decide (bar_duration < 4) then
        let* letter := str_first pitch in
        let* chord_notes := getitem chord_mappings c in
        let score' := if in_list letter chord_notes then score + d else score in
        consume chord_mappings c (bar_duration + d) score' rest'
      else Ok (score, rest)
  end.

Definition calculate (melody_data : MelodyData)
    (chord_mappings : gmap string (list string))
    (chord_sequence : list chord) : result Qc :=
  let* st := for_each chord_sequence
          (fun c st => consume chord_mappings c 0 (fst st) (snd st))
          (0, notes melody_data) in
  truediv (Qc_of_Z (fst st)) (Qc_of_Z (duration melody_data)).
End ChordMelodyCongruence.

Module ChordVariety.
Definition calculate (chord_mappings : gmap string (list string))
    (chord_sequence : list chord) : result Qc :=
  let unique_chords := size (list_to_set chord_sequence : gset string) in
  let total_chords := size chord_mappings in
  truediv (nat2Qc unique_chords) (nat2Qc total_chords).
End ChordVariety.

Module HarmonicFlow.
Definition calculate (preferred_transitions : gmap string (list string))
    (chord_sequence : list chord) : result Qc :=
  let total_transitions := Z.of_nat (length chord_sequence) - 1 in
  let* correct_transition_score := truediv 1%Qc (Qc_of_Z total_transitions) in
  for_each (range total_transitions)
    (fun i score =>
       let* next_chord := index chord_sequence (i + 1) in
       let* current := index chord_sequence i in
       let* preferred := getitem preferred_transitions current in
       Ok (if in_list next_chord preferred
           then (score + correct_transition_score)%Qc else score))
    0%Qc.
End HarmonicFlow.

Module FunctionalHarmony.
Definition calculate (chord_sequence : list chord) : result Qc :=
  let score := 0%Qc in
  let* correct_function_score := truediv 1%Qc (Qc_of_Z 3) in
  let* first := index chord_sequence 0 in
  let score := if in_list first ["Cmaj7"; "Fmaj7"]
               then (score + correct_function_score)%Qc else score in
  let* final := index_last chord_sequence in
  let score := if in_list final ["Cmaj7"]
               then (score + correct_function_score)%Qc else score in
  let score := if in_list "Fmaj7" chord_sequence && in_list "G7" chord_sequence
               then (score + correct_function_score)%Qc else score in
  Ok score.
End FunctionalHarmony.

Module VoiceLeading.
Definition calculate (chord_mappings : gmap string (list string))
    (chord_sequence : list chord) : result Qc :=
  let total_transitions := Z.of_nat (length chord_sequence) - 1 in
  let total_notes := 4 * total_transitions in
  let* shared_note_score := truediv 1%Qc (Qc_of_Z total_notes) in
  for_each (range total_transitions)
    (fun i score =>
       let* ci := index chord_sequence i in
       let* current_chord := getitem chord_mappings ci in
       let* cn := index chord_sequence (i + 1) in
       let* next_chord := getitem chord_mappings cn in
       for_each current_chord
         (fun n score =>
            Ok (if in_list n next_chord
                then (score + shared_note_score)%Qc else score))
         score)
    0%Qc.
End VoiceLeading.

Module ChordRepetitions.
Definition calculate (chord_sequence : list chord) : result Qc :=
  let total_transitions := Z.of_nat (length chord_sequence) - 2 in
  let* same_chord_penalty := truediv (Qc_of_Z (-1)) (Qc_of_Z total_transitions) in
  for_each (range total_transitions)
    (fun i score =>
       let* a := index chord_sequence i in
       let* b := index chord_sequence (i + 1) in
       let score := if bool_decide (a = b)
                    then (score + same_chord_penalty)%Qc else score in
       let* a' := index chord_sequence i in
       let* c := index chord_sequence (i + 2) in
       Ok (if bool_decide (a' = c)
           then (score + same_chord_penalty)%Qc else score))
    1%Qc.
End ChordRepetitions.

Module FunctionalProgressions.
Definition calculate (common_progressions : list (list chord))
    (chord_sequence : list chord) : result Qc :=
  let total_transitions := Z.of_nat (length chord_sequence) - 2 in
  let* common_progression_score := truediv (Qc_of_Z 3) (Qc_of_Z total_transitions) in
  for_each (range total_transitions)
    (fun i score =>
       Ok (if bool_decide (slice chord_sequence i (i + 3) ∈ common_progressions)
           then (score + common_progression_score)%Qc else score))
    0%Qc.
End FunctionalProgressions.

Module NonDiatonicChords.
(** The sixth literal is written in [metrics.py] with the bytes
    45 C3 82 C2 BA 37. *)
Definition non_diatonic_chords : gset string :=
  {[ "C7"; "D7"; "E7"; "A7"; "Dm7b5"; "EÂº7"; "Gmin7" ]}.

Definition calculate (chord_sequence : list chord) : result Qc :=
  let total_chords := Z.of_nat (length chord_sequence) in
  let* non_diationic_chord_score := truediv 1%Qc (Qc_of_Z total_chords) in
  for_each chord_sequence
    (fun c score =>
       Ok (if in_set c non_diatonic_chords
           then (score + non_diationic_chord_score)%Qc else score))
    0%Qc.
End NonDiatonicChords.

Module ParallelFifths.
Definition calculate (chords_with_parallel_fifths : gset (gset string))
    (chord_sequence : list chord) : result Qc :=
  let total_transitions := Z.of_nat (length chord_sequence) - 1 in
  let* parallel_fifth_penalty := truediv (Qc_of_Z (-1)) (Qc_of_Z total_transitions) in
  for_each (range total_transitions)
    (fun i score =>
       let* a := index chord_sequence i in
       let* b := index chord_sequence (i + 1) in
       Ok (if in_set ({[ a; b ]} : gset string) chords_with_parallel_fifths
           then (score + parallel_fifth_penalty)%Qc else score))
    1%Qc.
End ParallelFifths.

(** ** Fitness evaluator *)

Record FitnessEvaluator := {
  fe_melody_data : MelodyData;
  chord_mappings : gmap string (list string);
  weights : gmap string Qc;
  preferred_transitions : gmap string (list string);
  chords_with_parallel_fifths : gset (gset string);
  common_progressions : list (list chord)
}.

(** The list [metric_classes] of [FitnessEvaluator.evaluate]: each metric
    instance is its class name together with its bound [calculate]. *)
Definition metric_classes (fe : FitnessEvaluator)
  : list (string * (list chord -> result Qc)) :=
  [ ("ChordMelodyCongruence",
      ChordMelodyCongruence.calculate (fe_melody_data fe) (chord_mappings fe));
    ("ChordVariety", ChordVariety.calculate (chord_mappings fe));
    ("HarmonicFlow", HarmonicFlow.calculate (preferred_transitions fe));
    ("FunctionalHarmony", FunctionalHarmony.calculate);
    ("VoiceLeading", VoiceLeading.calculate (chord_mappings fe));
    ("ChordRepetitions", ChordRepetitions.calculate);
    ("FunctionalProgressions",
      FunctionalProgressions.calculate (common_progressions fe));
    ("NonDiatonicChords", NonDiatonicChords.calculate);
    ("ParallelFifths",
      ParallelFifths.calculate (chords_with_parallel_fifths fe)) ].

Definition evaluate (fe : FitnessEvaluator) (chord_sequence : list chord)
  : result Qc :=
  for_each (metric_classes fe)
    (fun metric_instance total_score =>
       let metric_name := fst metric_instance in
       let* metric_score := snd metric_instance chord_sequence in
       let metric_weight := dict_get (weights fe) metric_name 0%Qc in
       Ok (total_score + metric_score * metric_weight)%Qc)
    0%Qc.

(** [max(xs, key=key)]: the keys are computed in order, a later item
    replaces the current best only when its key is strictly greater. *)
Fixpoint max_loop {A} (key : A -> result Qc) (best : A) (best_key : Qc)
    (rest : list A) : result A :=
  match rest with
  | [] => Ok best
  | x :: rest' =>
      let* k := key x in
      if decide (best_key < k)%Qc then max_loop key x k rest'
      else max_loop key best best_key rest'
  end.

Definition max_by {A} (key : A -> result Qc) (xs : list A) : result A :=
  match xs with
  | [] => Err ValueError
  | x :: rest => let* k := key x in max_loop key x k rest
  end.

Definition get_chord_sequence_with_highest_fitness (fe : FitnessEvaluator)
    (chord_sequences : list (list chord)) : result (list chord) :=
  max_by (evaluate fe) chord_sequences.

(** ** The configuration of [main] *)

Module Main.
Definition twinkle_twinkle_melody : list note :=
  [ ("C5", 1); ("C5", 1); ("G5", 1); ("G5", 1); ("A5", 1); ("A5", 1); ("G5", 2);
    ("F5", 1); ("F5", 1); ("E5", 1); ("E5", 1); ("D5", 1); ("D5", 1); ("C5", 2);
    ("G5", 1); ("G5", 1); ("F5", 1); ("F5", 1); ("E5", 1); ("E5", 1); ("D5", 2);
    ("G5", 1); ("G5", 1); ("F5", 1); ("F5", 1); ("E5", 1); ("E5", 1); ("D5", 2);
    ("C5", 1); ("C5", 1); ("G5", 1); ("G5", 1); ("A5", 1); ("A5", 1); ("G5", 2);
    ("F5", 1); ("F5", 1); ("E5", 1); ("E5", 1); ("D5", 1); ("D5", 1); ("C5", 2) ].

Definition pct (n : Z) : Qc := (Qc_of_Z n / Qc_of_Z 100)%Qc.

Definition weights : gmap string Qc :=
  list_to_map
    [ ("ChordMelodyCongruence", pct 24); ("ChordVariety", pct 8);
      ("HarmonicFlow", pct 18); ("FunctionalHarmony", pct 10);
      ("VoiceLeading", pct 2); ("ChordRepetitions", pct 6);
      ("NonDiatonicChords", pct 6); ("FunctionalProgressions", pct 25);
      ("ParallelFifths", pct 1) ].

Definition chord_mappings_items : list (string * list string) :=
  [ ("Cmaj7", ["C"; "E"; "G"; "B"]);
    ("Dm7", ["D"; "F"; "A"; "C"]);
    ("Em7", ["E"; "G"; "B"; "D"]);
    ("Fmaj7", ["F"; "A"; "C"; "E"]);
    ("G7", ["G"; "B"; "D"; "F"]);
    ("Am7", ["A"; "C"; "E"; "G"]);
    ("Bm7b5", ["B"; "D"; "F"; "A"]);
    ("C7", ["C"; "E"; "G"; "Bb"]);
    ("D7", ["D"; "F#"; "A"; "C"]);
    ("E7", ["E"; "G#"; "B"; "D"]);
    ("A7", ["A"; "C#"; "E"; "G"]);
    ("Dm7b5", ["D"; "F"; "Ab"; "C"]);
    ("Eº7", ["E"; "G"; "Bb"; "Db"]);
    ("Gmin7", ["G"; "Bb"; "D"; "F"]) ].

Definition chord_mappings : gmap string (list string) :=
  list_to_map chord_mappings_items.

(** [list(chord_mappings.keys())], in insertion order. *)
Definition chords : list chord := chord_mappings_items.*1.

Definition preferred_transitions : gmap string (list string) :=
  list_to_map
    [ ("Cmaj7", ["Em7"; "Fmaj7"; "Am7"; "C7"; "E7"; "A7"; "Eº7"]);
      ("Dm7", ["G7"; "Am7"; "Bm7b5"; "D7"]);
      ("Em7", ["Am7"; "A7"; "Eº7"; "Gmin7"]);
      ("Fmaj7", ["Cmaj7"; "Em7"; "G7"; "Bm7b5"; "D7"; "E7"; "Dm7b5"]);
      ("G7", ["Cmaj7"; "Am7"; "Em7"]);
      ("Am7", ["Dm7"; "Fmaj7"; "Gmin7"; "Dm7b5"]);
      ("Bm7b5", ["Em7"; "E7"]);
      ("C7", ["Fmaj7"]);
      ("D7", ["G7"]);
      ("E7", ["Am7"]);
      ("A7", ["Dm7"]);
      ("Dm7b5", ["Cmaj7"; "Em7"]);
      ("Eº7", ["Dm7"; "Fmaj7"]);
      ("Gmin7", ["C7"; "Eº7"]) ].

Definition chords_with_parallel_fifths : gset (gset string) :=
  {[ {[ "Cmaj7"; "Dm7" ]}; {[ "Cmaj7"; "D7" ]}; {[ "Dm7"; "Em7" ]};
     {[ "Dm7"; "E7" ]}; {[ "Em7"; "D7" ]}; {[ "Am7"; "Bm7b5" ]};
     {[ "Bm7b5"; "Cmaj7" ]}; {[ "Bm7b5"; "C7" ]}; {[ "D7"; "E7" ]} ]}.

Definition common_progressions : list (list chord) :=
  [ ["Dm7"; "G7"; "Cmaj7"];
    ["Fmaj7"; "Dm7b5"; "Cmaj7"];
    ["Em7"; "A7"; "Dm7"];
    ["Cmaj7"; "Eº7"; "Dm7"];
    ["Fmaj7"; "Bm7b5"; "Em7"];
    ["Fmaj7"; "Bm7b5"; "E7"];
    ["Gmin7"; "C7"; "Fmaj7"];
    ["Am7"; "D7"; "G7"];
    ["Am7"; "Dm7"; "G7"];
    ["Bm7b5"; "E7"; "Am7"];
    ["Bm7b5"; "Em7"; "Am7"] ].

Definition fitness_evaluator (melody_data : MelodyData) : FitnessEvaluator :=
  Build_FitnessEvaluator melody_data chord_mappings weights
    preferred_transitions chords_with_parallel_fifths common_progressions.
End Main.

(** ** Random source

    Every call into Python's [random] module takes its outcome from the next
    entry of a random source, so that a statement quantified over the source
    covers every run. *)

Class RandomSource (G : Type) := draw : G -> N * G.

(** A computation that consumes randomness and may raise. *)
Definition Rand (G A : Type) : Type := G -> result (A * G).

Definition ret {G A} (a : A) : Rand G A := fun g => Ok (a, g).
Definition raise {G A} (e : exn) : Rand G A := fun _ => Err e.
Definition lift {G A} (r : result A) : Rand G A :=
  fun g => match r with Ok a => Ok (a, g) | Err e => Err e end.
Definition rbind {G A B} (m : Rand G A) (k : A -> Rand G B) : Rand G B :=
  fun g => match m g with
           | Ok (a, g') => k a g'
           | Err e => Err e
           end.

Notation "'let!' x := e 'in' k" := (rbind e (fun x => k))
  (at level 10, x name, e at level 100, k at level 200).

Section RandomModule.
Context {G : Type} `{RandomSource G}.

(** [[f() for _ in range(n)]] *)
Fixpoint replicateR {A} (n : nat) (m : Rand G A) : Rand G (list A) :=
  match n with
  | O => ret []
  | S n' => let! x := m in let! xs := replicateR n' m in ret (x :: xs)
  end.

(** [for x in xs: s = body(x, s)] *)
Fixpoint for_eachR {A S} (xs : list A) (body : A -> S -> Rand G S) (s : S)
  : Rand G S :=
  match xs with
  | [] => ret s
  | x :: rest => let! s' := body x s in for_eachR rest body s'
  end.

(** A uniform integer below [n], for [n > 0]. *)
Definition randbelow (n : nat) : Rand G nat :=
  fun g => let (r, g') := draw g in
           Ok (N.to_nat (r mod N.of_nat n)%N, g').

(** [random.random()]: a multiple of [2^-53] in [[0, 1)]. *)
Definition random_random : Rand G Qc :=
  fun g => let (r, g') := draw g in
           Ok ((Qc_of_Z (Z.of_N (r mod 2 ^ 53)%N) / Qc_of_Z (2 ^ 53))%Qc, g').

(** [random.choice(seq)]: [IndexError] on an empty sequence. *)
Definition random_choice {A} (xs : list A) : Rand G A :=
  match xs with
  | [] => raise IndexError
  | _ => let! i := randbelow (length xs) in lift (index xs i)
  end.

(** [random.randint(a, b)]: [ValueError] on an empty range. *)
Definition random_randint (a b : Z) : Rand G Z :=
  if decide (b < a) then raise ValueError
  else let! r := randbelow (Z.to_nat (b - a + 1)) in ret (a + Z.of_nat r).

(** [itertools.accumulate(weights)] *)
Fixpoint accumulate_from (acc : Qc) (ws : list Qc) : list Qc :=
  match ws with
  | [] => []
  | w :: rest => (acc + w)%Qc :: accumulate_from (acc + w)%Qc rest
  end.
Definition accumulate (ws : list Qc) : list Qc := accumulate_from 0%Qc ws.

(** [bisect.bisect_right(a, x, lo, hi)]. The loop halves [hi - lo], which
    bounds the number of iterations. *)
Fixpoint bisect_loop (fuel : nat) (a : list Qc) (x : Qc) (lo hi : nat) : nat :=
  match fuel with
  | O => lo
  | S fuel' =>
      if decide (lo < hi)%nat then
        let mid := ((lo + hi) / 2)%nat in
        match a !! mid with
        | Some am =>
            if decide (x < am)%Qc then bisect_loop fuel' a x lo mid
            else bisect_loop fuel' a x (mid + 1) hi
        | None => lo
        end
      else lo
  end.
Definition bisect (a : list Qc) (x : Qc) (lo hi : nat) : nat :=
  bisect_loop (hi - lo) a x lo hi.

(** [random.choices(population, weights=weights, k=k)] (Python 3.9 and
    later: a total weight that is not positive is rejected). *)
Definition random_choices {A} (population : list A) (ws : list Qc) (k : nat)
  : Rand G (list A) :=
  let n := length population in
  let cum_weights := accumulate ws in
  if decide (length cum_weights = n) then
    let! total := lift (index_last cum_weights) in
    if decide (total <= 0)%Qc then raise ValueError
    else
      let hi := (n - 1)%nat in
      replicateR k
        (let! u := random_random in
         lift (index population (bisect cum_weights (u * total)%Qc 0 hi)))
  else raise ValueError.
End RandomModule.

(** [[f(x) for x in xs]] *)
Fixpoint map_result {A B} (f : A -> result B) (xs : list A) : result (list B) :=
  match xs with
  | [] => Ok []
  | x :: rest =>
      let* y := f x in let* ys := map_result f rest in Ok (y :: ys)
  end.

(** [range(0, n, 2)] *)
Definition range_step2 (n : nat) : list nat :=
  map (fun j => (2 * j)%nat) (seq 0 (Nat.div2 (n + 1))).

(** ** Genetic search engine *)

Record GeneticMelodyHarmonizer := {
  melody_data : MelodyData;
  chords : list chord;
  population_size : nat;
  mutation_rate : Qc;
  fitness_evaluator : FitnessEvaluator
}.

Section Harmonizer.
Context {G : Type} `{RandomSource G}.
Variable self : GeneticMelodyHarmonizer.

Definition _generate_random_chord_sequence : Rand G (list chord) :=
  replicateR (Z.to_nat (2 * number_of_bars (melody_data self)))
    (random_choice (chords self)).

Definition _initialise_population : Rand G (list (list chord)) :=
  replicateR (population_size self) _generate_random_chord_sequence.

(** [self._population] is passed explicitly. *)
Definition _select_parents (_population : list (list chord))
  : Rand G (list (list chord)) :=
  let! fitness_values :=
    lift (map_result (evaluate (fitness_evaluator self)) _population) in
  random_choices _population fitness_values (population_size self).

Definition _crossover (parent1 parent2 : list chord) : Rand G (list chord) :=
  let! cut_index := random_randint 1 (Z.of_nat (length parent1) - 1) in
  ret (take (Z.to_nat cut_index) parent1 ++ drop (Z.to_nat cut_index) parent2)%list.

Definition _mutate (chord_sequence : list chord) : Rand G (list chord) :=
  let! u := random_random in
  if decide (u < mutation_rate self)%Qc then
    let! mutation_index :=
      random_randint 0 (Z.of_nat (length chord_sequence) - 1) in
    let! c := random_choice (chords self) in
    ret (<[Z.to_nat mutation_index := c]> chord_sequence)
  else ret chord_sequence.

(** The body of the loop of [_create_new_population]. *)
Definition breed (parents : list (list chord)) (i : nat)
    (new_population : list (list chord)) : Rand G (list (list chord)) :=
  let! p1 := lift (index parents i) in
  let! p2 := lift (index parents (i + 1)) in
  let! child1 := _crossover p1 p2 in
  let! q1 := lift (index parents (i + 1)) in
  let! q2 := lift (index parents i) in
  let! child2 := _crossover q1 q2 in
  let! child1 := _mutate child1 in
  let! child2 := _mutate child2 in
  ret (new_population ++ [child1; child2])%list.

Definition _create_new_population (parents : list (list chord))
  : Rand G (list (list chord)) :=
  for_eachR (range_step2 (population_size self)) (breed parents) [].

(** One pass of the loop body of [generate]. *)
Definition generation_step (_population : list (list chord))
  : Rand G (list (list chord)) :=
  let! parents := _select_parents _population in
  _create_new_population parents.

Fixpoint evolve (generations : nat) (_population : list (list chord))
  : Rand G (list (list chord)) :=
  match generations with
  | O => ret _population
  | S n =>
      let! new_population := generation_step _population in
      evolve n new_population
  end.

Definition generate (generations : nat) : Rand G (list chord) :=
  let! _population := _initialise_population in
  let! _population := evolve generations _population in
  lift (get_chord_sequence_with_highest_fitness
          (fitness_evaluator self) _population).
End Harmonizer.

(** A random source that replays a finite tape and then yields zeros. *)
#[export] Instance tape_source : RandomSource (list N) :=
  fun g => match g with
           | [] => (0%N, [])
           | r :: g' => (r, g')
           end.

(** ** Reference quantities used in the statements *)

(** The number of positions [i < n] with [chord_sequence[i]] equal to
    [chord_sequence[i + gap]]. *)
Definition repeats_within (chord_sequence : list chord) (gap n : nat) : nat :=
  length (filter (fun i => chord_sequence !! i = chord_sequence !! (i + gap)%nat)
            (seq 0 n)).

(** The score of [ChordRepetitions] when the immediate repeats are counted
    over the first [adjacent_positions] positions and the repeats at
    distance two over every position that has a chord two places later. *)
Definition repetition_score (chord_sequence : list chord)
    (adjacent_positions : nat) : Qc :=
  let n := length chord_sequence in
  (1 - nat2Qc (repeats_within chord_sequence 1 adjacent_positions
               + repeats_within chord_sequence 2 (n - 2))
       / nat2Qc (n - 2))%Qc.

(** The chords of the default vocabulary that [NonDiatonicChords] counts. *)
Definition counted_non_diatonic : list chord :=
  ["C7"; "D7"; "E7"; "A7"; "Dm7b5"; "Gmin7"].

(** A chord sequence drawn from a vocabulary given as a list of names. *)
Definition drawn_from (vocabulary : list chord) (chord_sequence : list chord)
  : Prop :=
  Forall (fun c => c ∈ vocabulary) chord_sequence.

(** A melody is malformed when it has no note or a note whose duration is
    not positive. *)
Definition malformed (ns : list note) : Prop :=
  ns = [] \/ Exists (fun n => snd n <= 0) ns.

(** The weight [evaluate] uses for a metric. *)
Definition weight_of (fe : FitnessEvaluator) (metric_name : string) : Qc :=
  dict_get (weights fe) metric_name 0%Qc.

(** An evaluator with the tables of [main] and no weights. *)
Definition unweighted_evaluator (melody_data : MelodyData) : FitnessEvaluator :=
  Build_FitnessEvaluator melody_data Main.chord_mappings ∅
    Main.preferred_transitions Main.chords_with_parallel_fifths
    Main.common_progressions.

(** Four quarter notes: one bar. *)
Definition one_bar_melody : MelodyData :=
  {| notes := [("C5", 1); ("E5", 1); ("G5", 1); ("C5", 1)];
     duration := 4; number_of_bars := 1 |}.

(** ** Outcomes of randomised computations *)

(** [m] returns from every state of the random source, with a value
    satisfying [Q]. *)
Definition returns {G A} (m : Rand G A) (Q : A -> Prop) : Prop :=
  forall g, exists a g', m g = Ok (a, g') /\ Q a.

(** Whatever [m] returns satisfies [Q]. *)
Definition ensures {G A} (m : Rand G A) (Q : A -> Prop) : Prop :=
  forall g a g', m g = Ok (a, g') -> Q a.

(** [m] raises from every state of the random source. *)
Definition always_raises {G A} (m : Rand G A) : Prop :=
  forall g, exists e, m g = Err e.

(** ** Configurations of the search engine *)

(** Two chords per bar. *)
Definition sequence_length (self : GeneticMelodyHarmonizer) : nat :=
  Z.to_nat (2 * number_of_bars (melody_data self)).


(** A candidate harmonization: the right number of chords, all taken from
    the list of available chords. *)
Definition candidate (self : GeneticMelodyHarmonizer) (s : list chord) : Prop :=
  length s = sequence_length self /\ drawn_from (chords self) s.



(** [child] is [parent1[:cut] + parent2[cut:]] for a cut index between 1 and
    [len(parent1) - 1]. *)
Definition spliced (parent1 parent2 child : list chord) : Prop :=
  exists cut : nat,
    (1 <= cut <= length parent1 - 1)%nat
    /\ child = (take cut parent1 ++ drop cut parent2)%list.

(** ** Concrete configurations *)

(** The melody of [main]: 48 beats, 12 bars. *)
Definition twinkle_melody_data : MelodyData :=
  {| notes := Main.twinkle_twinkle_melody; duration := 48; number_of_bars := 12 |}.

(** The first phrase of the melody of [main]: 8 beats, 2 bars. *)
Definition two_bar_melody : MelodyData :=
  {| notes := [("C5", 1); ("C5", 1); ("G5", 1); ("G5", 1);
               ("A5", 1); ("A5", 1); ("G5", 2)];
     duration := 8; number_of_bars := 2 |}.


(** The configuration of [main] on the one-bar melody. *)
Definition one_bar_harmonizer : GeneticMelodyHarmonizer :=
  {| melody_data := one_bar_melody;
     chords := Main.chords;
     population_size := 100;
     mutation_rate := Main.pct 5;
     fitness_evaluator := Main.fitness_evaluator one_bar_melody |}.

(** The tables of [main] without weights: every fitness is 0. *)
Definition unweighted_harmonizer : GeneticMelodyHarmonizer :=
  {| melody_data := two_bar_melody;
     chords := Main.chords;
     population_size := 4;
     mutation_rate := Main.pct 5;
     fitness_evaluator := unweighted_evaluator two_bar_melody |}.


(** A fixed run of the random source. *)
Definition sample_tape : list N :=
  [3; 141; 59; 26; 535; 89; 79; 323; 84; 62; 64; 33; 83; 27; 95; 2; 88; 41;
   97; 16; 93; 99; 37; 51; 5; 82; 9; 74; 94; 45; 92; 30; 78; 16; 40; 62]%N.

(** Equality of two computed rationals. *)
Ltac qc_compute := vm_compute; f_equal; apply Qc_is_canon; reflexivity.

(** ** Further reference quantities *)

(** The number of elements of [xs] on which [f] holds. *)
Definition tally {A} (f : A -> bool) (xs : list A) : nat :=
  length (List.filter f xs).

(** Every pitch of the melody has a first character. *)
Definition pitches_nonempty (ns : list note) : Prop :=
  Forall (fun n => fst n <> "") ns.

(** Every note lasts a positive number of beats. *)
Definition durations_positive (ns : list note) : Prop :=
  Forall (fun n => 0 < snd n) ns.

(** A melody as the specification wants it: at least one note, every pitch
    with a first character, every duration positive. *)
Definition well_formed_melody (ns : list note) : Prop :=
  ns <> [] /\ pitches_nonempty ns /\ durations_positive ns.

(** The beats of a list of notes, summed from the right. *)
Definition beats (ns : list note) : Z := foldr (fun n acc => snd n + acc) 0 ns.

(** The tables and weights of [main] on the two-bar melody with the
    mutation switched off. *)
Definition unmutated_harmonizer : GeneticMelodyHarmonizer :=
  {| melody_data := two_bar_melody;
     chords := Main.chords;
     population_size := 2;
     mutation_rate := 0%Qc;
     fitness_evaluator := Main.fitness_evaluator two_bar_melody |}.

(** [population] with two children appended, each a one-point crossover of
    the parents at positions [i] and [i + 1], in the two orders. *)
Definition bred_without_mutation (parents : list (list chord)) (i : nat)
    (population new_population : list (list chord)) : Prop :=
  exists parent1 parent2 child1 child2,
    parents !! i = Some parent1 /\ parents !! (i + 1)%nat = Some parent2
    /\ spliced parent1 parent2 child1 /\ spliced parent2 parent1 child2
    /\ new_population = (population ++ [child1; child2])%list.

(** The number of adjacent pairs of [chord_sequence] whose unordered pair of
    names is in the parallel-fifths set. *)
Definition parallel_pairs (parallel_fifths : gset (gset string))
    (chord_sequence : list chord) : nat :=
  tally (fun i => match chord_sequence !! i, chord_sequence !! (i + 1)%nat with
                  | Some a, Some b =>
                      in_set ({[ a; b ]} : gset string) parallel_fifths
                  | _, _ => false
                  end)
    (seq 0 (length chord_sequence - 1)).

(** The score after [share] is added to [score] once for each chord of
    [chord_sequence], taken in order, that is one of the six chords of
    [counted_non_diatonic]. *)
Definition add_share_per_counted (share : Qc) (chord_sequence : list chord)
    (score : Qc) : Qc :=
  foldl (fun score c =>
           if bool_decide (c ∈ counted_non_diatonic)
           then (score + share)%Qc else score)
    score chord_sequence.

(** The number of adjacent pairs of [chord_sequence] whose second chord is
    listed as a preferred successor of the first. *)
Definition preferred_steps (preferred_transitions : gmap string (list string))
    (chord_sequence : list chord) : nat :=
  tally (fun i => match chord_sequence !! i, chord_sequence !! (i + 1)%nat with
                  | Some a, Some b =>
                      match preferred_transitions !! a with
                      | Some preferred => in_list b preferred
                      | None => false
                      end
                  | _, _ => false
                  end)
    (seq 0 (length chord_sequence - 1)).

(** The number of windows of three consecutive chords of [chord_sequence]
    that are listed in [common_progressions]. *)
Definition matching_windows (common_progressions : list (list chord))
    (chord_sequence : list chord) : nat :=
  tally (fun i =>
           bool_decide (slice chord_sequence i (i + 3) ∈ common_progressions))
    (seq 0 (length chord_sequence - 2)).

(** The number of chords of [chord_sequence] that are members of the
    hard-coded set of [NonDiatonicChords]. *)
Definition non_diatonic_count (chord_sequence : list chord) : nat :=
  tally (fun c => in_set c NonDiatonicChords.non_diatonic_chords) chord_sequence.

(** The number of penalties [ChordRepetitions] applies: the repeats at
    distance one and at distance two among the positions its loop visits. *)
Definition repetition_count (chord_sequence : list chord) : nat :=
  (repeats_within chord_sequence 1 (length chord_sequence - 2)
   + repeats_within chord_sequence 2 (length chord_sequence - 2))%nat.

(** The number of notes, over all adjacent pairs of chords, that the first
    chord of the pair has in common with the second. *)
Definition shared_notes (chord_mappings : gmap string (list string))
    (chord_sequence : list chord) : nat :=
  sum_list
    ((fun i => match chord_sequence !! i, chord_sequence !! (i + 1)%nat with
               | Some a, Some b =>
                   match chord_mappings !! a, chord_mappings !! b with
                   | Some current_chord, Some next_chord =>
                       tally (fun n => in_list n next_chord) current_chord
                   | _, _ => 0%nat
                   end
               | _, _ => 0%nat
               end)
       <$> seq 0 (length chord_sequence - 1)).

(** * Properties *)

(** ** Loops and lookups *)

Lemma bind_ok {A B} (r : result A) (k : A -> result B) b :
  bind r k = Ok b -> exists a, r = Ok a /\ k a = Ok b.
Proof. destruct r as [a|e]; simpl; [eauto | discriminate]. Qed.

Lemma for_each_inv {A S} (P : S -> Prop) (xs : list A)
    (body : A -> S -> result S) (s : S) :
  P s ->
  (forall x s, x ∈ xs -> P s -> exists s', body x s = Ok s' /\ P s') ->
  exists s', for_each xs body s = Ok s' /\ P s'.
Proof.
  revert s. induction xs as [|x xs IH]; intros s Hs Hbody; simpl.
  - eauto.
  - destruct (Hbody x s) as (s' & -> & Hs'); [left | assumption |].
    simpl. apply IH; [assumption|].
    intros y t Hy. apply Hbody. by right.
Qed.

Lemma index_lt {A} (xs : list A) (i : nat) :
  (i < length xs)%nat -> exists x, xs !! i = Some x /\ index xs i = Ok x.
Proof.
  intros Hi. destruct (lookup_lt_is_Some_2 xs i Hi) as [x Hx].
  exists x. unfold index. by rewrite Hx.
Qed.

Lemma elem_of_range (n : Z) (i : nat) : i ∈ range n <-> Z.of_nat i < n.
Proof. unfold range. rewrite elem_of_seq. lia. Qed.

Lemma Qc_of_Z_nonzero (z : Z) : z <> 0 -> Qc_of_Z z <> 0%Qc.
Proof. intros Hz Heq. apply Hz, Z2Qc_inj. by rewrite Z2Qc_inj_0. Qed.

Lemma truediv_nonzero (a : Qc) (z : Z) :
  z <> 0 -> truediv a (Qc_of_Z z) = Ok (a / Qc_of_Z z)%Qc.
Proof.
  intros Hz. unfold truediv.
  destruct (decide _) as [E|_]; [by apply Qc_of_Z_nonzero in E | done].
Qed.

Lemma truediv_zero (a : Qc) : truediv a (Qc_of_Z 0) = Err ZeroDivisionError.
Proof. reflexivity. Qed.

Lemma penalty_nonpos (t : Z) : 0 < t -> (Qc_of_Z (-1) / Qc_of_Z t <= 0)%Qc.
Proof.
  intros Ht.
  assert (Hpos : (0 < / Qc_of_Z t)%Qc).
  { apply Qcinv_pos. rewrite <- Z2Qc_inj_0. by apply (proj1 (Z2Qc_inj_lt 0 t)). }
  unfold Qcdiv.
  replace (Qc_of_Z (-1)) with (- 1)%Qc by (apply Qc_is_canon; reflexivity).
  replace (- 1 * / Qc_of_Z t)%Qc with (- / Qc_of_Z t)%Qc by ring.
  replace 0%Qc with (- 0)%Qc by ring.
  apply Qcopp_le_compat. by apply Qclt_le_weak.
Qed.

Lemma add_penalty_le_1 (score p : Qc) :
  (score <= 1)%Qc -> (p <= 0)%Qc -> (score + p <= 1)%Qc.
Proof.
  intros Hs Hp. replace 1%Qc with (1 + 0)%Qc by ring.
  by apply Qcplus_le_compat.
Qed.

(** ** Chord repetitions *)

Lemma ChordRepetitions_at_most_1 (chord_sequence : list chord) :
  (3 <= length chord_sequence)%nat ->
  exists q, ChordRepetitions.calculate chord_sequence = Ok q /\ (q <= 1)%Qc.
Proof.
  intros Hlen. unfold ChordRepetitions.calculate.
  rewrite truediv_nonzero by lia. simpl.
  pose proof (penalty_nonpos (Z.of_nat (length chord_sequence) - 2) ltac:(lia))
    as Hp.
  apply for_each_inv; [apply Qcle_refl|].
  intros i s Hi Hs. apply elem_of_range in Hi.
  destruct (index_lt chord_sequence i) as (a & _ & ->); [lia|].
  destruct (index_lt chord_sequence (i + 1)) as (b & _ & ->); [lia|].
  destruct (index_lt chord_sequence (i + 2)) as (c & _ & ->); [lia|].
  simpl. eexists; split; [reflexivity|].
  repeat case_bool_decide; auto using add_penalty_le_1.
Qed.

Lemma ParallelFifths_at_most_1 (pf : gset (gset string))
    (chord_sequence : list chord) :
  (2 <= length chord_sequence)%nat ->
  exists q, ParallelFifths.calculate pf chord_sequence = Ok q /\ (q <= 1)%Qc.
Proof.
  intros Hlen. unfold ParallelFifths.calculate.
  rewrite truediv_nonzero by lia. simpl.
  pose proof (penalty_nonpos (Z.of_nat (length chord_sequence) - 1) ltac:(lia))
    as Hp.
  apply for_each_inv; [apply Qcle_refl|].
  intros i s Hi Hs. apply elem_of_range in Hi.
  destruct (index_lt chord_sequence i) as (a & _ & ->); [lia|].
  destruct (index_lt chord_sequence (i + 1)) as (b & _ & ->); [lia|].
  simpl. eexists; split; [reflexivity|].
  destruct (in_set _ _); auto using add_penalty_le_1.
Qed.

Lemma nat2Qc_le (a b : nat) : (a <= b)%nat -> (nat2Qc a <= nat2Qc b)%Qc.
Proof. intros Hab. unfold nat2Qc. apply (proj1 (Z2Qc_inj_le _ _)). lia. Qed.

Lemma nat2Qc_pos (a : nat) : (0 < a)%nat -> (0 < nat2Qc a)%Qc.
Proof.
  intros Ha. unfold nat2Qc. rewrite <- Z2Qc_inj_0.
  apply (proj1 (Z2Qc_inj_lt _ _)). lia.
Qed.

Lemma nat2Qc_add (a b : nat) : nat2Qc (a + b) = (nat2Qc a + nat2Qc b)%Qc.
Proof. unfold nat2Qc. by rewrite Nat2Z.inj_add, Z2Qc_inj_add. Qed.

Lemma nat2Qc_S (a : nat) : nat2Qc (S a) = (nat2Qc a + 1)%Qc.
Proof.
  unfold nat2Qc. by rewrite Nat2Z.inj_succ, <- Z.add_1_r, Z2Qc_inj_add, Z2Qc_inj_1.
Qed.

Lemma nat2Qc_0 : nat2Qc 0 = 0%Qc.
Proof. unfold nat2Qc. simpl. apply Z2Qc_inj_0. Qed.

Lemma ratio_in_unit_interval (u t : nat) :
  (u <= t)%nat -> (0 < t)%nat ->
  (0 <= nat2Qc u / nat2Qc t)%Qc /\ (nat2Qc u / nat2Qc t <= 1)%Qc.
Proof.
  intros Hut Ht.
  pose proof (nat2Qc_pos t Ht) as Hpos.
  pose proof (Qcinv_pos _ Hpos) as Hinv.
  unfold Qcdiv. split.
  - apply Qcmult_nonneg_nonneg; [|by apply Qclt_le_weak].
    rewrite <- nat2Qc_0. apply nat2Qc_le. lia.
  - rewrite <- (Qcmult_inv_r (nat2Qc t)) by by apply Qclt_not_eq in Hpos.
    apply Qcmult_le_compat_r; [by apply nat2Qc_le | by apply Qclt_le_weak].
Qed.

Lemma nat2Qc_nonneg (a : nat) : (0 <= nat2Qc a)%Qc.
Proof. rewrite <- nat2Qc_0. apply nat2Qc_le. lia. Qed.

Lemma nat2Qc_pos_iff (a : nat) : (0 < nat2Qc a)%Qc <-> (0 < a)%nat.
Proof.
  split; [|apply nat2Qc_pos].
  intros Ha. destruct a as [|a]; [|lia].
  rewrite nat2Qc_0 in Ha. by apply Qclt_not_eq in Ha.
Qed.

(** A score made of [j] equal positive shares: its sign, and its order
    against a score made of [k] such shares. *)
Lemma scaled_count_order (p : Qc) (j k : nat) :
  (0 < p)%Qc ->
  (0 <= p * nat2Qc j)%Qc
  /\ ((0 < p * nat2Qc j)%Qc <-> (0 < j)%nat)
  /\ ((j <= k)%nat -> (p * nat2Qc j <= p * nat2Qc k)%Qc).
Proof.
  intros Hp. split; [|split].
  - apply Qcmult_nonneg_nonneg; [by apply Qclt_le_weak | apply nat2Qc_nonneg].
  - rewrite <- nat2Qc_pos_iff. split.
    + intros Hpos. replace 0%Qc with (p * 0)%Qc in Hpos by ring.
      by apply (Qcmult_lt_mono_pos_l 0 (nat2Qc j) p Hp).
    + intros Hj. by apply Qcmult_pos_pos.
  - intros Hjk. apply Qcmult_le_mono_nonneg_l; [by apply Qclt_le_weak|].
    by apply nat2Qc_le.
Qed.

Lemma unit_share_pos (z : Z) : 0 < z -> (0 < 1 / Qc_of_Z z)%Qc.
Proof.
  intros Hz. unfold Qcdiv. rewrite Qcmult_1_l. apply Qcinv_pos.
  rewrite <- Z2Qc_inj_0. apply (proj1 (Z2Qc_inj_lt _ _)). lia.
Qed.

(** ** Chord variety *)

Lemma ChordVariety_in_unit_interval (chord_mappings : gmap string (list string))
    (chord_sequence : list chord) :
  chord_sequence <> [] ->
  Forall (fun c => c ∈ dom chord_mappings) chord_sequence ->
  exists q, ChordVariety.calculate chord_mappings chord_sequence = Ok q
            /\ (0 <= q)%Qc /\ (q <= 1)%Qc.
Proof.
  intros Hne Hvoc. unfold ChordVariety.calculate.
  set (u := size (list_to_set chord_sequence : gset string)).
  set (t := size chord_mappings).
  assert (Hsub : (list_to_set chord_sequence : gset string) ⊆ dom chord_mappings).
  { intros c Hc. apply elem_of_list_to_set in Hc.
    by apply (proj1 (Forall_forall _ _) Hvoc). }
  assert (Hut : (u <= t)%nat).
  { unfold u, t. rewrite <- size_dom. by apply subseteq_size. }
  assert (Ht : (0 < t)%nat).
  { destruct chord_sequence as [|c cs]; [done|].
    apply Forall_cons in Hvoc as [Hc _].
    apply elem_of_dom in Hc as [v Hv].
    unfold t. destruct (decide (size chord_mappings = 0%nat)) as [E|E]; [|lia].
    apply map_size_empty_inv in E. subst. by rewrite lookup_empty in Hv. }
  unfold truediv. destruct (decide _) as [E|_].
  - pose proof (nat2Qc_pos t Ht) as Hpos. rewrite E in Hpos.
    by apply Qclt_not_eq in Hpos.
  - eexists; split; [reflexivity|]. by apply ratio_in_unit_interval.
Qed.

(** ** Chord repetitions: what the loop computes *)

Lemma repeats_within_S (cs : list chord) (gap n : nat) :
  repeats_within cs gap (S n) =
  (repeats_within cs gap n
   + if bool_decide (cs !! n = cs !! (n + gap)%nat) then 1 else 0)%nat.
Proof.
  unfold repeats_within. rewrite seq_S, filter_app, length_app. simpl.
  rewrite filter_cons, filter_nil.
  case_bool_decide; destruct (decide _); simpl; try done; lia.
Qed.

Lemma ChordRepetitions_loop (cs : list chord) (p : Qc) (n : nat) :
  (n + 2 <= length cs)%nat ->
  for_each (seq 0 n)
    (fun i score =>
       let* a := index cs i in
       let* b := index cs (i + 1) in
       let score := if bool_decide (a = b) then (score + p)%Qc else score in
       let* a' := index cs i in
       let* c := index cs (i + 2) in
       Ok (if bool_decide (a' = c) then (score + p)%Qc else score))
    1%Qc
  = Ok (1 + p * nat2Qc (repeats_within cs 1 n + repeats_within cs 2 n))%Qc.
Proof.
  intros Hn.
  assert (Hgen : forall k start (s : Qc), (start + k + 2 <= length cs)%nat ->
    for_each (seq start k)
      (fun i score =>
         let* a := index cs i in
         let* b := index cs (i + 1) in
         let score := if bool_decide (a = b) then (score + p)%Qc else score in
         let* a' := index cs i in
         let* c := index cs (i + 2) in
         Ok (if bool_decide (a' = c) then (score + p)%Qc else score))
      s
    = Ok (s + p * nat2Qc
            (length (filter (fun i => cs !! i = cs !! (i + 1)%nat) (seq start k))
             + length (filter (fun i => cs !! i = cs !! (i + 2)%nat) (seq start k))))%Qc).
  { induction k as [|k IH]; intros start s Hk.
    - simpl. f_equal. rewrite nat2Qc_0. ring.
    - cbn [seq for_each].
      destruct (index_lt cs start) as (a & Ha & ->); [lia|].
      destruct (index_lt cs (start + 1)) as (b & Hb & ->); [lia|].
      destruct (index_lt cs (start + 2)) as (c & Hc & ->); [lia|].
      cbn [bind]. rewrite IH by lia. f_equal.
      rewrite !filter_cons, Ha, Hb, Hc.
      repeat case_bool_decide; repeat destruct (decide _);
        try congruence; cbn [length];
        rewrite ?Nat.add_succ_r, ?Nat.add_succ_l, ?nat2Qc_S; ring. }
  apply (Hgen n 0%nat 1%Qc). lia.
Qed.

Lemma ChordRepetitions_calculate_eq (chord_sequence : list chord) :
  (3 <= length chord_sequence)%nat ->
  ChordRepetitions.calculate chord_sequence
  = Ok (repetition_score chord_sequence (length chord_sequence - 2)).
Proof.
  intros Hlen. unfold ChordRepetitions.calculate, range.
  rewrite truediv_nonzero by lia. cbn [bind].
  replace (Z.to_nat (Z.of_nat (length chord_sequence) - 2))
    with (length chord_sequence - 2)%nat by lia.
  rewrite ChordRepetitions_loop by lia. f_equal.
  unfold repetition_score, nat2Qc.
  replace (Z.of_nat (length chord_sequence - 2))
    with (Z.of_nat (length chord_sequence) - 2) by lia.
  replace (Qc_of_Z (-1)) with (- 1)%Qc by (apply Qc_is_canon; reflexivity).
  unfold Qcdiv, Qcminus. ring.
Qed.

(** C5. The immediate-repeat test runs over the positions [0 .. length - 3]
    only: on [Cmaj7, Dm7, Dm7] the loop returns 1 and leaves the final
    repeated pair without penalty, whereas counting every adjacent pair
    gives 0. The score is not clamped: four equal chords score -1. *)
Theorem ChordRepetitions_skips_last_pair :
  ChordRepetitions.calculate ["Cmaj7"; "Dm7"; "Dm7"] = Ok 1%Qc
  /\ repetition_score ["Cmaj7"; "Dm7"; "Dm7"] (3 - 1) = 0%Qc
  /\ ChordRepetitions.calculate ["Cmaj7"; "Cmaj7"; "Cmaj7"; "Cmaj7"]
     = Ok (- 1)%Qc.
Proof.
  split; [qc_compute|]. split; [|qc_compute].
  vm_compute. apply Qc_is_canon. reflexivity.
Qed.

(** C8. On a chord sequence of length at least 3 drawn from the vocabulary,
    ChordVariety returns a value in [0, 1], and ChordRepetitions and
    ParallelFifths each return a value of at most 1. *)
Theorem metric_bounds (chord_mappings : gmap string (list string))
    (parallel_fifths : gset (gset string)) (chord_sequence : list chord) :
  (3 <= length chord_sequence)%nat ->
  Forall (fun c => c ∈ dom chord_mappings) chord_sequence ->
  (exists q, ChordVariety.calculate chord_mappings chord_sequence = Ok q
             /\ (0 <= q)%Qc /\ (q <= 1)%Qc)
  /\ (exists q, ChordRepetitions.calculate chord_sequence = Ok q /\ (q <= 1)%Qc)
  /\ (exists q, ParallelFifths.calculate parallel_fifths chord_sequence = Ok q
                /\ (q <= 1)%Qc).
Proof.
  intros Hlen Hvoc. split; [|split].
  - apply ChordVariety_in_unit_interval; [|assumption].
    intros ->. simpl in Hlen. lia.
  - by apply ChordRepetitions_at_most_1.
  - apply ParallelFifths_at_most_1. lia.
Qed.

Lemma metric_bounds_witness :
  (exists q, ChordVariety.calculate Main.chord_mappings ["Dm7"; "G7"; "Cmaj7"] = Ok q
             /\ (0 <= q)%Qc /\ (q <= 1)%Qc)
  /\ (exists q, ChordRepetitions.calculate ["Dm7"; "G7"; "Cmaj7"] = Ok q
                /\ (q <= 1)%Qc)
  /\ (exists q, ParallelFifths.calculate Main.chords_with_parallel_fifths
                  ["Dm7"; "G7"; "Cmaj7"] = Ok q /\ (q <= 1)%Qc).
Proof.
  apply (metric_bounds Main.chord_mappings Main.chords_with_parallel_fifths
           ["Dm7"; "G7"; "Cmaj7"]).
  - simpl. lia.
  - repeat constructor; apply elem_of_dom; eexists; vm_compute; reflexivity.
Defined.

(** ** Melody construction *)

(** C6, as the code has it. Construction validates nothing: it succeeds on
    every note list, with [duration] the sum of the note durations and
    [number_of_bars] that sum floor-divided by 4. *)
Theorem MelodyData_init_total (ns : list note) :
  exists m, MelodyData_init ns = Ok m
            /\ notes m = ns
            /\ duration m = foldr (fun n acc => snd n + acc) 0 ns
            /\ number_of_bars m = duration m / 4.
Proof.
  eexists; split; [reflexivity|]. cbn. repeat split.
  unfold sum_durations.
  assert (Hgen : forall acc,
    foldl (fun a n => a + snd n) acc ns
    = acc + foldr (fun n a => snd n + a) 0 ns).
  { induction ns as [|n ns IH]; intros acc; simpl; [lia|]. rewrite IH. lia. }
  rewrite Hgen. lia.
Qed.

(** C6 as stated fails: the empty note list and a note of duration -4 are
    both accepted. *)
Lemma MelodyData_init_accepts_malformed :
  malformed [] /\ malformed [("C5", -4)]
  /\ MelodyData_init [] = Ok {| notes := []; duration := 0; number_of_bars := 0 |}
  /\ MelodyData_init [("C5", -4)]
     = Ok {| notes := [("C5", -4)]; duration := -4; number_of_bars := -1 |}.
Proof.
  split; [by left|]. split; [right; constructor; simpl; lia|].
  split; reflexivity.
Qed.

(** ** Fitness evaluation *)

Lemma for_each_raises_elem {A S} (xs : list A) (body : A -> S -> result S)
    (x : A) (s0 : S) :
  x ∈ xs -> (forall s, raises (body x s)) -> raises (for_each xs body s0).
Proof.
  revert s0. induction xs as [|y ys IH]; intros s0 Hx Hbad.
  - by apply elem_of_nil in Hx.
  - cbn [for_each]. apply elem_of_cons in Hx as [<-|Hx].
    + destruct (Hbad s0) as [e ->]. by exists e.
    + destruct (body y s0) as [s1|e]; cbn [bind]; [by apply IH | by exists e].
Qed.

Lemma for_each_first_raise {A S} (before after : list A) (x : A)
    (body : A -> S -> result S) (e : exn) (s0 : S) :
  (forall y s, y ∈ before -> is_ok (body y s)) ->
  (forall s, body x s = Err e) ->
  for_each (before ++ x :: after) body s0 = Err e.
Proof.
  revert s0. induction before as [|y ys IH]; intros s0 Hok Hbad.
  - cbn [app for_each]. by rewrite Hbad.
  - cbn [app for_each]. destruct (Hok y s0) as [s1 ->]; [left|].
    cbn [bind]. apply IH; [|done]. intros z s Hz. apply Hok. by right.
Qed.

Lemma ChordRepetitions_two_chords (s : list chord) :
  length s = 2%nat -> ChordRepetitions.calculate s = Err ZeroDivisionError.
Proof. intros Hs. unfold ChordRepetitions.calculate. by rewrite Hs. Qed.

Lemma evaluate_two_chords (fe : FitnessEvaluator) (s : list chord) :
  length s = 2%nat -> raises (evaluate fe s).
Proof.
  intros Hs. unfold evaluate, metric_classes. cbn [for_each fst snd].
  destruct (ChordMelodyCongruence.calculate _ _ _); cbn [bind]; [|by eexists].
  destruct (ChordVariety.calculate _ _); cbn [bind]; [|by eexists].
  destruct (HarmonicFlow.calculate _ _); cbn [bind]; [|by eexists].
  destruct (FunctionalHarmony.calculate _); cbn [bind]; [|by eexists].
  destruct (VoiceLeading.calculate _ _); cbn [bind]; [|by eexists].
  rewrite ChordRepetitions_two_chords by done. by eexists.
Qed.

(** C7, as the code has it. When each of the nine metrics returns a score,
    [evaluate] returns the sum of score times weight in the order of
    [metric_classes], a metric absent from the weights counting with weight
    0; with no weights at all that sum is 0. When a metric raises, [evaluate]
    raises: the exception is that of the first metric of [metric_classes]
    that raises, whatever the weights; every sequence of two chords is such
    a sequence. *)
Theorem evaluate_weighted_sum (fe : FitnessEvaluator)
    (chord_sequence : list chord) :
  (forall s1 s2 s3 s4 s5 s6 s7 s8 s9 : Qc,
     ChordMelodyCongruence.calculate (fe_melody_data fe) (chord_mappings fe)
       chord_sequence = Ok s1 ->
     ChordVariety.calculate (chord_mappings fe) chord_sequence = Ok s2 ->
     HarmonicFlow.calculate (preferred_transitions fe) chord_sequence = Ok s3 ->
     FunctionalHarmony.calculate chord_sequence = Ok s4 ->
     VoiceLeading.calculate (chord_mappings fe) chord_sequence = Ok s5 ->
     ChordRepetitions.calculate chord_sequence = Ok s6 ->
     FunctionalProgressions.calculate (common_progressions fe) chord_sequence
       = Ok s7 ->
     NonDiatonicChords.calculate chord_sequence = Ok s8 ->
     ParallelFifths.calculate (chords_with_parallel_fifths fe) chord_sequence
       = Ok s9 ->
     evaluate fe chord_sequence
     = Ok (0 + s1 * weight_of fe "ChordMelodyCongruence"
             + s2 * weight_of fe "ChordVariety"
             + s3 * weight_of fe "HarmonicFlow"
             + s4 * weight_of fe "FunctionalHarmony"
             + s5 * weight_of fe "VoiceLeading"
             + s6 * weight_of fe "ChordRepetitions"
             + s7 * weight_of fe "FunctionalProgressions"
             + s8 * weight_of fe "NonDiatonicChords"
             + s9 * weight_of fe "ParallelFifths")%Qc
     /\ (weights fe = ∅ -> evaluate fe chord_sequence = Ok 0%Qc))
  /\ (forall before metric_instance after e,
        metric_classes fe = (before ++ metric_instance :: after)%list ->
        Forall (fun m => is_ok (snd m chord_sequence)) before ->
        snd metric_instance chord_sequence = Err e ->
        evaluate fe chord_sequence = Err e)
  /\ (forall metric_instance,
        metric_instance ∈ metric_classes fe ->
        raises (snd metric_instance chord_sequence) ->
        raises (evaluate fe chord_sequence))
  /\ (length chord_sequence = 2%nat -> raises (evaluate fe chord_sequence)).
Proof.
  split; [|split; [|split]].
  - intros s1 s2 s3 s4 s5 s6 s7 s8 s9 H1 H2 H3 H4 H5 H6 H7 H8 H9.
    assert (Hsum : evaluate fe chord_sequence
      = Ok (0 + s1 * weight_of fe "ChordMelodyCongruence"
              + s2 * weight_of fe "ChordVariety"
              + s3 * weight_of fe "HarmonicFlow"
              + s4 * weight_of fe "FunctionalHarmony"
              + s5 * weight_of fe "VoiceLeading"
              + s6 * weight_of fe "ChordRepetitions"
              + s7 * weight_of fe "FunctionalProgressions"
              + s8 * weight_of fe "NonDiatonicChords"
              + s9 * weight_of fe "ParallelFifths")%Qc).
    { unfold evaluate, metric_classes. cbn [for_each fst snd].
      rewrite H1, H2, H3, H4, H5, H6, H7, H8, H9. reflexivity. }
    split; [exact Hsum|].
    intros Hw. rewrite Hsum. f_equal.
    unfold weight_of, dict_get. rewrite Hw, !lookup_empty. ring.
  - intros before m after e Hsplit Hbefore Hm. unfold evaluate.
    rewrite Hsplit. apply for_each_first_raise.
    + intros y s Hy.
      destruct (proj1 (Forall_forall _ _) Hbefore y Hy) as [score Hscore].
      rewrite Hscore. cbn [bind]. unfold is_ok. eauto.
    + intros s. by rewrite Hm.
  - intros m Hin [e Hm]. unfold evaluate.
    apply (for_each_raises_elem _ _ m); [exact Hin|].
    intros s. rewrite Hm. by exists e.
  - apply evaluate_two_chords.
Qed.

Lemma evaluate_weighted_sum_witness :
  (exists q, evaluate (unweighted_evaluator one_bar_melody) ["Dm7"; "G7"; "Cmaj7"]
             = Ok q /\ q = 0%Qc)
  /\ evaluate (unweighted_evaluator one_bar_melody) ["Dm7"; "H7"; "Cmaj7"]
     = Err KeyError
  /\ raises (evaluate (unweighted_evaluator one_bar_melody) ["Dm7"; "G7"]).
Proof.
  split; [|split].
  - exists 0%Qc. split; [|reflexivity].
    refine (proj2 (proj1 (evaluate_weighted_sum
              (unweighted_evaluator one_bar_melody) ["Dm7"; "G7"; "Cmaj7"])
              _ _ _ _ _ _ _ _ _ _ _ _ _ _ _ _ _ _) _); reflexivity.
  - refine (proj1 (proj2 (evaluate_weighted_sum
              (unweighted_evaluator one_bar_melody) ["Dm7"; "H7"; "Cmaj7"]))
              (take 2 (metric_classes (unweighted_evaluator one_bar_melody)))
              ("HarmonicFlow", HarmonicFlow.calculate Main.preferred_transitions)
              (drop 3 (metric_classes (unweighted_evaluator one_bar_melody)))
              KeyError _ _ _).
    + reflexivity.
    + repeat constructor; vm_compute; eexists; reflexivity.
    + reflexivity.
  - apply (proj2 (proj2 (proj2 (evaluate_weighted_sum
             (unweighted_evaluator one_bar_melody) ["Dm7"; "G7"])))).
    reflexivity.
Defined.

(** C7 as stated fails: with no weights, a sequence of two chords makes
    [evaluate] raise [ZeroDivisionError] instead of returning 0. *)
Lemma evaluate_raises_on_short_sequence :
  weights (unweighted_evaluator one_bar_melody) = ∅
  /\ evaluate (unweighted_evaluator one_bar_melody) ["Cmaj7"; "Dm7"]
     = Err ZeroDivisionError.
Proof. split; reflexivity. Qed.

(** ** Non-diatonic chords *)

Lemma in_set_vocabulary (c : chord) :
  c ∈ Main.chords ->
  in_set c NonDiatonicChords.non_diatonic_chords
  = bool_decide (c ∈ counted_non_diatonic).
Proof.
  unfold Main.chords. cbn [Main.chord_mappings_items fmap list_fmap fst].
  intros Hc.
  repeat match goal with
         | H : _ ∈ _ :: _ |- _ => apply elem_of_cons in H as [->|H]
         | H : _ ∈ [] |- _ => by apply elem_of_nil in H
         end; vm_compute; reflexivity.
Qed.

Lemma NonDiatonicChords_loop (p : Qc) (cs : list chord) (s : Qc) :
  drawn_from Main.chords cs ->
  for_each cs
    (fun c score =>
       Ok (if in_set c NonDiatonicChords.non_diatonic_chords
           then (score + p)%Qc else score))
    s
  = Ok (s + p * nat2Qc (length (filter (fun c => c ∈ counted_non_diatonic) cs)))%Qc.
Proof.
  revert s. induction cs as [|c cs IH]; intros s Hcs.
  - simpl. f_equal. rewrite nat2Qc_0. ring.
  - apply Forall_cons in Hcs as [Hc Hcs]. cbn [for_each bind].
    rewrite IH by assumption. f_equal.
    rewrite in_set_vocabulary by assumption. rewrite filter_cons.
    case_bool_decide; destruct (decide _); try done; cbn [length];
      rewrite ?nat2Qc_S; ring.
Qed.

Lemma NonDiatonicChords_loop_counted (p : Qc) (cs : list chord) (s : Qc) :
  drawn_from Main.chords cs ->
  for_each cs
    (fun c score =>
       Ok (if in_set c NonDiatonicChords.non_diatonic_chords
           then (score + p)%Qc else score))
    s
  = Ok (add_share_per_counted p cs s).
Proof.
  revert s. induction cs as [|c cs IH]; intros s Hcs; [done|].
  apply Forall_cons in Hcs as [Hc Hcs]. cbn [for_each bind].
  rewrite IH by assumption. by rewrite in_set_vocabulary.
Qed.

Lemma filter_length_pos {A} (P : A -> Prop) `{forall x, Decision (P x)}
    (xs : list A) :
  (0 < length (filter P xs))%nat <-> Exists P xs.
Proof.
  induction xs as [|x xs IH].
  - simpl. split; [lia | by intros ?%Exists_nil].
  - rewrite filter_cons, Exists_cons. destruct (decide (P x)) as [Hx|Hx].
    + split; [by left | simpl; lia].
    + rewrite IH. split; [by right | by intros [?|?]].
Qed.

(** C10. On a chord sequence drawn from the default vocabulary the test of
    the loop holds exactly for the chords C7, D7, E7, A7, Dm7b5 and Gmin7:
    NonDiatonicChords returns what is obtained by adding [1 / length] to 0
    once for each occurrence of one of these six, in the order of the
    sequence, and nothing for any other chord. On the empty sequence it
    raises [ZeroDivisionError]; on any other it returns a score that is not
    negative, and positive exactly when one of the six occurs. The
    vocabulary chord written E-degree-7 is not in the metric's set, so it
    never contributes; the member of that set with the extra bytes C3 82 is
    not a vocabulary chord. *)
Theorem NonDiatonicChords_counts_six (chord_sequence : list chord) :
  drawn_from Main.chords chord_sequence ->
  Forall (fun c => in_set c NonDiatonicChords.non_diatonic_chords
                   = bool_decide (c ∈ counted_non_diatonic)) chord_sequence
  /\ NonDiatonicChords.calculate chord_sequence
     = (let* share := truediv 1%Qc
                        (Qc_of_Z (Z.of_nat (length chord_sequence))) in
        Ok (add_share_per_counted share chord_sequence 0%Qc))
  /\ (chord_sequence = [] ->
      NonDiatonicChords.calculate chord_sequence = Err ZeroDivisionError)
  /\ (chord_sequence <> [] ->
      exists score,
        NonDiatonicChords.calculate chord_sequence = Ok score
        /\ (0 <= score)%Qc
        /\ ((0 < score)%Qc
            <-> Exists (fun c => c ∈ counted_non_diatonic) chord_sequence))
  /\ ("Eº7" ∈ Main.chords)
  /\ ("Eº7" ∉ NonDiatonicChords.non_diatonic_chords)
  /\ ("Eº7" ∉ counted_non_diatonic)
  /\ ("EÂº7" ∈ NonDiatonicChords.non_diatonic_chords)
  /\ ("EÂº7" ∉ Main.chords).
Proof.
  intros Hvoc. split; [|split; [|split; [|split]]].
  - eapply Forall_impl; [exact Hvoc|]. intros c Hc. by apply in_set_vocabulary.
  - unfold NonDiatonicChords.calculate.
    destruct (truediv _ _) as [share|e]; cbn [bind]; [|done].
    by apply NonDiatonicChords_loop_counted.
  - by intros ->.
  - intros Hne.
    assert (Hlen : 0 < Z.of_nat (length chord_sequence))
      by (destruct chord_sequence; [done | simpl; lia]).
    unfold NonDiatonicChords.calculate.
    rewrite truediv_nonzero by lia. cbn [bind].
    rewrite NonDiatonicChords_loop by assumption.
    eexists. split; [reflexivity|]. rewrite Qcplus_0_l.
    destruct (scaled_count_order (1 / Qc_of_Z (Z.of_nat (length chord_sequence)))
                (length (filter (fun c => c ∈ counted_non_diatonic)
                           chord_sequence)) 0 (unit_share_pos _ Hlen))
      as (Hnonneg & Hpos & _).
    split; [exact Hnonneg|]. by rewrite Hpos, filter_length_pos.
  - split; [|split; [|split; [|split]]];
      refine (bool_decide_unpack _ _); vm_compute; exact I.
Qed.

Lemma NonDiatonicChords_counts_six_witness :
  NonDiatonicChords.calculate ["Eº7"; "C7"; "Dm7"; "Gmin7"]
  = (let* share := truediv 1%Qc (Qc_of_Z 4) in
     Ok (add_share_per_counted share ["Eº7"; "C7"; "Dm7"; "Gmin7"] 0%Qc))
  /\ exists score,
       NonDiatonicChords.calculate ["Eº7"; "Eº7"; "Eº7"] = Ok score
       /\ ~ (0 < score)%Qc.
Proof.
  split.
  - refine (proj1 (proj2 (NonDiatonicChords_counts_six
              ["Eº7"; "C7"; "Dm7"; "Gmin7"] _))).
    repeat constructor; refine (bool_decide_unpack _ _); vm_compute; exact I.
  - destruct (NonDiatonicChords_counts_six ["Eº7"; "Eº7"; "Eº7"])
      as (_ & _ & _ & Hscore & _).
    + repeat constructor; refine (bool_decide_unpack _ _); vm_compute; exact I.
    + destruct Hscore as (score & Hcalc & _ & Hpos); [discriminate|].
      exists score. split; [exact Hcalc|].
      intros Hlt. apply Hpos in Hlt.
      repeat match goal with
             | H : Exists _ (_ :: _) |- _ => apply Exists_cons in H as [H|H]
             | H : Exists _ [] |- _ => by apply Exists_nil in H
             end;
        revert Hlt; refine (bool_decide_unpack _ _); vm_compute; exact I.
Defined.

(** ** Randomised computations *)

Section RandLemmas.
Context {G : Type} `{RandomSource G}.

Lemma rbind_ok {A B} (m : Rand G A) (k : A -> Rand G B) (g : G) b g2 :
  rbind m k g = Ok (b, g2) ->
  exists a g1, m g = Ok (a, g1) /\ k a g1 = Ok (b, g2).
Proof.
  unfold rbind. destruct (m g) as [[a g1]|e]; [eauto | discriminate].
Qed.

Lemma lift_ok {A} (r : result A) (g : G) a g' :
  lift r g = Ok (a, g') -> r = Ok a /\ g' = g.
Proof. unfold lift. destruct r; intros [= <- <-] || discriminate. done. Qed.

Lemma returns_ret {A} (a : A) (Q : A -> Prop) : Q a -> returns (G:=G) (ret a) Q.
Proof. intros Ha g. exists a, g. done. Qed.

Lemma returns_bind {A B} (m : Rand G A) (k : A -> Rand G B)
    (P : A -> Prop) (Q : B -> Prop) :
  returns m P -> (forall a, P a -> returns (k a) Q) -> returns (rbind m k) Q.
Proof.
  intros Hm Hk g. destruct (Hm g) as (a & g1 & Ha & HP).
  destruct (Hk a HP g1) as (b & g2 & Hb & HQ).
  exists b, g2. unfold rbind. rewrite Ha. done.
Qed.

Lemma returns_weaken {A} (m : Rand G A) (P Q : A -> Prop) :
  returns m P -> (forall a, P a -> Q a) -> returns m Q.
Proof.
  intros Hm HPQ g. destruct (Hm g) as (a & g1 & Ha & HP). eauto 6.
Qed.


Lemma ensures_ret {A} (a : A) (Q : A -> Prop) : Q a -> ensures (G:=G) (ret a) Q.
Proof. intros Ha g b g' [= <- _]. done. Qed.

Lemma ensures_bind {A B} (m : Rand G A) (k : A -> Rand G B)
    (P : A -> Prop) (Q : B -> Prop) :
  ensures m P -> (forall a, P a -> ensures (k a) Q) -> ensures (rbind m k) Q.
Proof.
  intros Hm Hk g b g2 Hb. apply rbind_ok in Hb as (a & g1 & Ha & Hb).
  eapply Hk; [eapply Hm|]; eauto.
Qed.

Lemma ensures_weaken {A} (m : Rand G A) (P Q : A -> Prop) :
  ensures m P -> (forall a, P a -> Q a) -> ensures m Q.
Proof. intros Hm HPQ g a g' Ha. eauto. Qed.

Lemma ensures_raise {A} (e : exn) (Q : A -> Prop) : ensures (G:=G) (raise e) Q.
Proof. intros g a g'. discriminate. Qed.


Lemma always_raises_bind_l {A B} (m : Rand G A) (k : A -> Rand G B) :
  always_raises m -> always_raises (rbind m k).
Proof. intros Hm g. destruct (Hm g) as [e He]. exists e. unfold rbind. by rewrite He. Qed.

Lemma always_raises_bind_r {A B} (m : Rand G A) (k : A -> Rand G B)
    (P : A -> Prop) :
  ensures m P -> (forall a, P a -> always_raises (k a)) ->
  always_raises (rbind m k).
Proof.
  intros Hm Hk g. unfold rbind. destruct (m g) as [[a g1]|e] eqn:E; [|eauto].
  apply Hk. eapply Hm. eauto.
Qed.


Lemma ensures_replicateR {A} (n : nat) (m : Rand G A) (Q : A -> Prop) :
  ensures m Q ->
  ensures (replicateR n m) (fun xs => length xs = n /\ Forall Q xs).
Proof.
  intros Hm. induction n as [|n IH]; simpl.
  - apply ensures_ret. split; [done | constructor].
  - eapply ensures_bind; [exact Hm|]. intros x Hx.
    eapply ensures_bind; [exact IH|]. intros xs [Hlen Hxs].
    apply ensures_ret. simpl. split; [by rewrite Hlen | by constructor].
Qed.



End RandLemmas.

(** ** The random module *)

Section RandomModuleLemmas.
Context {G : Type} `{RandomSource G}.

Lemma returns_randbelow (n : nat) :
  (0 < n)%nat -> returns (G:=G) (randbelow n) (fun r => (r < n)%nat).
Proof.
  intros Hn g. unfold randbelow. destruct (draw g) as [r g'].
  eexists _, g'. split; [reflexivity|].
  assert ((r mod N.of_nat n < N.of_nat n)%N) by (apply N.mod_lt; lia). lia.
Qed.



Lemma returns_random_randint (a b : Z) :
  a <= b -> returns (G:=G) (random_randint a b) (fun r => a <= r <= b).
Proof.
  intros Hab. unfold random_randint. destruct (decide (b < a)); [lia|].
  eapply returns_bind; [apply (returns_randbelow (Z.to_nat (b - a + 1))); lia|].
  intros r Hr. cbn beta in Hr. apply returns_ret. lia.
Qed.

Lemma always_raises_random_randint (a b : Z) :
  b < a -> forall g : G, random_randint a b g = Err ValueError.
Proof.
  intros Hab g. unfold random_randint. by destruct (decide (b < a)); [|lia].
Qed.

(** *** Binary search *)


(** The fuel [hi - lo] handed to the loop is never exhausted: more fuel
    does not change the result. *)
Lemma bisect_loop_fuel (f1 f2 : nat) (a : list Qc) (x : Qc) (lo hi : nat) :
  (hi - lo <= f1)%nat -> (hi - lo <= f2)%nat ->
  bisect_loop f1 a x lo hi = bisect_loop f2 a x lo hi.
Proof.
  revert f2 lo hi. induction f1 as [|f1 IH]; intros f2 lo hi H1 H2.
  - destruct f2 as [|f2]; cbn [bisect_loop]; [done|].
    destruct (decide (lo < hi)%nat); [lia | done].
  - destruct f2 as [|f2]; cbn [bisect_loop].
    + destruct (decide (lo < hi)%nat); [lia | done].
    + destruct (decide (lo < hi)%nat) as [Hlt|]; [|done].
      assert (Hmid : (lo <= (lo + hi) / 2 < hi)%nat).
      { split; [apply Nat.div_le_lower_bound; lia
               | apply Nat.Div0.div_lt_upper_bound; lia]. }
      destruct (a !! ((lo + hi) / 2)%nat) as [am|]; [|done].
      destruct (decide (x < am)%Qc); apply IH; lia.
Qed.


(** *** Weighted sampling *)

Lemma length_accumulate_from (acc : Qc) (ws : list Qc) :
  length (accumulate_from acc ws) = length ws.
Proof. revert acc. induction ws as [|w ws IH]; intros acc; simpl; auto. Qed.


Lemma last_accumulate_zero (ws : list Qc) :
  Forall (fun w => w = 0%Qc) ws -> ws <> [] ->
  last (accumulate ws) = Some 0%Qc.
Proof.
  unfold accumulate. intros Hws Hne.
  induction ws as [|w ws IH]; [done|].
  apply Forall_cons in Hws as [-> Hws].
  destruct ws as [|w' ws']; [reflexivity|].
  specialize (IH Hws ltac:(done)). simpl in *.
  replace (0 + 0)%Qc with 0%Qc by ring. exact IH.
Qed.

Lemma ensures_random_choices {A} (population : list A) (ws : list Qc)
    (k : nat) :
  ensures (G:=G) (random_choices population ws k)
    (fun l => length l = k /\ Forall (fun x => x ∈ population) l).
Proof.
  unfold random_choices. destruct (decide _); [|apply ensures_raise].
  eapply ensures_bind with (P := fun _ => True); [by intros ???|].
  intros total _. destruct (decide _); [apply ensures_raise|].
  apply ensures_replicateR.
  eapply ensures_bind with (P := fun _ => True); [by intros ???|].
  intros u _ g x g' Hx. apply lift_ok in Hx as [Hx _].
  unfold index in Hx.
  destruct (population !! _) as [y|] eqn:E; [|discriminate].
  injection Hx as <-. apply list_elem_of_lookup. eauto.
Qed.


Lemma random_choices_rejects_nonpositive {A} (population : list A)
    (ws : list Qc) (k : nat) (total : Qc) (g : G) :
  length ws = length population ->
  last (accumulate ws) = Some total -> (total <= 0)%Qc ->
  random_choices population ws k g = Err ValueError.
Proof.
  intros Hlen Hlast Hle. unfold random_choices, accumulate in *.
  rewrite length_accumulate_from.
  destruct (decide _) as [_|]; [|done].
  unfold rbind, lift, index_last. rewrite Hlast.
  by destruct (decide _).
Qed.
End RandomModuleLemmas.

(** ** List comprehensions and [max] *)

Lemma map_result_ok {A B} (f : A -> result B) (Q : B -> Prop) (xs : list A) :
  (forall x, x ∈ xs -> exists y, f x = Ok y /\ Q y) ->
  exists ys, map_result f xs = Ok ys /\ length ys = length xs /\ Forall Q ys.
Proof.
  induction xs as [|x xs IH]; intros Hf; simpl.
  - exists []. repeat split. constructor.
  - destruct (Hf x) as (y & -> & Hy); [left|].
    destruct IH as (ys & -> & Hlen & Hys); [intros z Hz; apply Hf; by right|].
    exists (y :: ys). simpl. repeat split; [by rewrite Hlen | by constructor].
Qed.

Lemma map_result_raises {A B} (f : A -> result B) (x : A) (xs : list A) :
  raises (f x) -> raises (map_result f (x :: xs)).
Proof. intros [e He]. exists e. simpl. by rewrite He. Qed.

Lemma max_loop_elem {A} (key : A -> result Qc) (best : A) (best_key : Qc)
    (rest : list A) (b : A) :
  max_loop key best best_key rest = Ok b -> b = best \/ b ∈ rest.
Proof.
  revert best best_key. induction rest as [|x rest IH]; intros best bk; simpl.
  - intros [= ->]. by left.
  - destruct (key x) as [k|e]; simpl; [|discriminate].
    destruct (decide _); intros Hb; apply IH in Hb as [->|Hb];
      auto using list_elem_of_here, list_elem_of_further.
Qed.

Lemma max_by_elem {A} (key : A -> result Qc) (xs : list A) (b : A) :
  max_by key xs = Ok b -> b ∈ xs.
Proof.
  destruct xs as [|x xs]; simpl; [discriminate|].
  destruct (key x) as [k|e]; simpl; [|discriminate].
  intros Hb. apply max_loop_elem in Hb as [->|Hb];
    auto using list_elem_of_here, list_elem_of_further.
Qed.



Lemma max_by_raises {A} (key : A -> result Qc) (x : A) (xs : list A) :
  raises (key x) -> raises (max_by key (x :: xs)).
Proof. intros [e He]. exists e. simpl. by rewrite He. Qed.

(** ** The search engine *)

Lemma length_range_step2 (n : nat) : length (range_step2 n) = Nat.div2 (n + 1).
Proof. unfold range_step2. by rewrite length_map, length_seq. Qed.

Lemma range_step2_even (m : nat) :
  length (range_step2 (2 * m)) = m
  /\ forall i, i ∈ range_step2 (2 * m) -> (i + 1 < 2 * m)%nat.
Proof.
  assert (Hd : Nat.div2 (2 * m + 1) = m).
  { rewrite Nat.add_1_r. apply Nat.div2_succ_double. }
  split.
  - by rewrite length_range_step2.
  - unfold range_step2. rewrite Hd. intros i Hi.
    apply list_elem_of_fmap in Hi as (j & -> & Hj).
    apply elem_of_seq in Hj. lia.
Qed.


Section HarmonizerLemmas.
Context {G : Type} `{RandomSource G}.
Variable self : GeneticMelodyHarmonizer.


Lemma ensures_generate_random_chord_sequence :
  ensures (G:=G) (_generate_random_chord_sequence self)
    (fun s => length s = sequence_length self).
Proof.
  unfold _generate_random_chord_sequence.
  eapply ensures_weaken;
    [apply ensures_replicateR with (Q := fun _ => True); by intros ???|].
  by intros s [Hlen _].
Qed.

Lemma ensures_initialise_population :
  ensures (G:=G) (_initialise_population self)
    (fun pop => length pop = population_size self
                /\ Forall (fun s => length s = sequence_length self) pop).
Proof.
  apply ensures_replicateR, ensures_generate_random_chord_sequence.
Qed.


(** *** Crossover *)

Lemma ensures_crossover (parent1 parent2 : list chord) :
  ensures (G:=G) (_crossover parent1 parent2) (spliced parent1 parent2).
Proof.
  unfold _crossover, random_randint.
  destruct (decide _) as [|Hge].
  { intros g a g'. unfold rbind, raise. discriminate. }
  intros g c g2 Hc.
  apply rbind_ok in Hc as (cut & g1 & Hcut & Hc).
  injection Hc as <- _.
  destruct (returns_random_randint (G:=G) 1 (Z.of_nat (length parent1) - 1)
              ltac:(lia) g) as (cut' & g1' & Hcut' & Hrange).
  unfold random_randint in Hcut'. destruct (decide _) in Hcut'; [lia|].
  rewrite Hcut in Hcut'. injection Hcut' as <- <-.
  exists (Z.to_nat cut). split; [lia | reflexivity].
Qed.

Lemma returns_crossover (parent1 parent2 : list chord) :
  (2 <= length parent1)%nat ->
  returns (G:=G) (_crossover parent1 parent2) (spliced parent1 parent2).
Proof.
  intros Hlen. unfold _crossover.
  eapply returns_bind; [apply returns_random_randint; lia|].
  intros cut Hcut. cbn beta in Hcut. apply returns_ret.
  exists (Z.to_nat cut). split; [lia | reflexivity].
Qed.

Lemma spliced_length (parent1 parent2 child : list chord) (n : nat) :
  length parent1 = n -> length parent2 = n ->
  spliced parent1 parent2 child -> length child = n.
Proof.
  intros H1 H2 (cut & Hcut & ->).
  rewrite length_app, length_take, length_drop. lia.
Qed.

Lemma spliced_Forall (P : chord -> Prop) (parent1 parent2 child : list chord) :
  Forall P parent1 -> Forall P parent2 ->
  spliced parent1 parent2 child -> Forall P child.
Proof.
  intros H1 H2 (cut & _ & ->).
  apply Forall_app. split; [by apply Forall_take | by apply Forall_drop].
Qed.

(** *** Mutation *)

Lemma ensures_mutate (chord_sequence : list chord) :
  ensures (G:=G) (_mutate self chord_sequence)
    (fun s => length s = length chord_sequence
              /\ (drawn_from (chords self) chord_sequence ->
                  drawn_from (chords self) s)).
Proof.
  unfold _mutate.
  eapply ensures_bind with (P := fun _ => True); [by intros ???|].
  intros u _. destruct (decide _); [|by apply ensures_ret].
  eapply ensures_bind with (P := fun _ => True); [by intros ???|].
  intros i _.
  eapply ensures_bind with (P := fun c => c ∈ chords self).
  { intros g c g' Hc. destruct (chords self) as [|c0 cs] eqn:E; [discriminate|].
    unfold random_choice in Hc. apply rbind_ok in Hc as (j & g1 & _ & Hc).
    apply lift_ok in Hc as [Hc _]. unfold index in Hc.
    destruct (_ !! j) as [y|] eqn:Ey; [|discriminate].
    injection Hc as <-. apply list_elem_of_lookup. eauto. }
  intros c Hc. apply ensures_ret. split; [apply length_insert|].
  intros Hs. by apply Forall_insert.
Qed.

End HarmonizerLemmas.

Section PopulationLemmas.
Context {G : Type} `{RandomSource G}.
Variable self : GeneticMelodyHarmonizer.

Lemma ensures_lift_index {A} (xs : list A) (i : nat) :
  ensures (G:=G) (lift (index xs i)) (fun x => x ∈ xs).
Proof.
  intros g x g' Hx. apply lift_ok in Hx as [Hx _]. unfold index in Hx.
  destruct (xs !! i) as [y|] eqn:E; [|discriminate].
  injection Hx as <-. apply list_elem_of_lookup. eauto.
Qed.








(** *** Selection *)

Lemma ensures_select_parents (_population : list (list chord)) :
  ensures (G:=G) (_select_parents self _population)
    (fun parents => length parents = population_size self
                    /\ Forall (fun p => p ∈ _population) parents).
Proof.
  unfold _select_parents.
  eapply ensures_bind with (P := fun _ => True); [by intros ???|].
  intros ws _. apply ensures_random_choices.
Qed.


(** With fitness 0 throughout, the weighted sampling is refused. *)
Lemma select_parents_all_zero (_population : list (list chord)) (g : G) :
  _population <> [] ->
  (forall s, s ∈ _population ->
     evaluate (fitness_evaluator self) s = Ok 0%Qc) ->
  _select_parents self _population g = Err ValueError.
Proof.
  intros Hne Hzero. unfold _select_parents.
  destruct (map_result_ok (evaluate (fitness_evaluator self))
              (fun w => w = 0%Qc) _population) as (ws & Hws & Hlen & Hall).
  { intros s Hs. exists 0%Qc. split; [by apply Hzero | done]. }
  unfold rbind at 1. rewrite Hws. cbn [lift].
  eapply random_choices_rejects_nonpositive; [done | | apply Qcle_refl].
  apply last_accumulate_zero; [done|]. destruct ws, _population; done.
Qed.
End PopulationLemmas.

Section EvolutionLemmas.
Context {G : Type} `{RandomSource G}.
Variable self : GeneticMelodyHarmonizer.











(** *** Sequences of two chords *)

Lemma select_parents_raises (_population : list (list chord)) :
  Forall (fun s => raises (evaluate (fitness_evaluator self) s)) _population ->
  always_raises (G:=G) (_select_parents self _population).
Proof.
  intros Hpop g. unfold _select_parents, rbind.
  destruct _population as [|s pop].
  - cbn. eauto.
  - apply Forall_cons in Hpop as [Hs _].
    destruct (map_result_raises _ s pop Hs) as [e ->]. cbn. eauto.
Qed.

Lemma evolve_then_best_raises (generations : nat)
    (_population : list (list chord)) :
  Forall (fun s => raises (evaluate (fitness_evaluator self) s)) _population ->
  always_raises (G:=G)
    (let! pop := evolve self generations _population in
     lift (get_chord_sequence_with_highest_fitness
             (fitness_evaluator self) pop)).
Proof.
  intros Hpop. destruct generations as [|n].
  - intros g. unfold rbind. cbn [evolve ret].
    unfold get_chord_sequence_with_highest_fitness, lift.
    destruct _population as [|s pop]; [cbn; eauto|].
    apply Forall_cons in Hpop as [Hs _].
    destruct (max_by_raises _ s pop Hs) as [e ->]. eauto.
  - cbn [evolve]. apply always_raises_bind_l, always_raises_bind_l.
    unfold generation_step. by apply always_raises_bind_l, select_parents_raises.
Qed.
End EvolutionLemmas.

(** ** Concrete configurations *)

Lemma melodies_are_constructed :
  MelodyData_init (notes one_bar_melody) = Ok one_bar_melody
  /\ MelodyData_init (notes two_bar_melody) = Ok two_bar_melody
  /\ MelodyData_init Main.twinkle_twinkle_melody = Ok twinkle_melody_data.
Proof. repeat split; reflexivity. Qed.



(** ** Length of the harmonization *)




(** ** Size of the population *)



(** ** A melody of one bar *)

(** C2, as the code has it. For a melody of one bar every sequence of the
    initial population has two chords, the fitness evaluation of a sequence
    of two chords raises (the normaliser [length - 2] of ChordRepetitions is
    zero), and [generate] raises for every number of generations and every
    run of the random source: no sequence is returned. *)
Theorem one_bar_generate_raises {G : Type} `{RandomSource G}
    (self : GeneticMelodyHarmonizer) (generations : nat) :
  number_of_bars (melody_data self) = 1 ->
  ensures (G:=G) (_initialise_population self)
    (Forall (fun s => length s = 2%nat))
  /\ (forall s, length s = 2%nat ->
        ChordRepetitions.calculate s = Err ZeroDivisionError
        /\ raises (evaluate (fitness_evaluator self) s))
  /\ always_raises (G:=G) (generate self generations).
Proof.
  intros Hbars.
  assert (HL : sequence_length self = 2%nat)
    by (unfold sequence_length; rewrite Hbars; reflexivity).
  assert (Hinit : ensures (G:=G) (_initialise_population self)
                    (Forall (fun s => length s = 2%nat))).
  { eapply ensures_weaken; [apply ensures_initialise_population|].
    intros pop [_ Hpop]. by rewrite HL in Hpop. }
  split; [exact Hinit|]. split.
  - intros s Hs. split;
      [by apply ChordRepetitions_two_chords | by apply evaluate_two_chords].
  - unfold generate. eapply always_raises_bind_r; [exact Hinit|].
    intros pop Hpop. apply evolve_then_best_raises.
    eapply Forall_impl; [exact Hpop|].
    intros s Hs. by apply evaluate_two_chords.
Qed.

Lemma one_bar_generate_raises_witness :
  exists e, generate one_bar_harmonizer 1000 sample_tape = Err e.
Proof.
  destruct (one_bar_generate_raises (G:=list N) one_bar_harmonizer 1000 eq_refl)
    as (_ & _ & Hraise).
  exact (Hraise sample_tape).
Defined.

(** C2 as stated fails: with the configuration of [main] on a melody of four
    quarter notes, [generate] raises [ZeroDivisionError]. *)
Lemma one_bar_generate_fails :
  notes one_bar_melody = [("C5", 1); ("E5", 1); ("G5", 1); ("C5", 1)]
  /\ number_of_bars one_bar_melody = 1
  /\ generate one_bar_harmonizer 1000 sample_tape = Err ZeroDivisionError
  /\ ~ (exists best g', generate one_bar_harmonizer 1000 sample_tape
                        = Ok (best, g')).
Proof.
  assert (Hrun : generate one_bar_harmonizer 1000 sample_tape
                 = Err ZeroDivisionError) by (vm_compute; reflexivity).
  split; [reflexivity|]. split; [reflexivity|]. split; [exact Hrun|].
  intros (best & g' & Hbest). rewrite Hrun in Hbest. discriminate.
Qed.

(** ** Selection when every fitness is zero *)

(** C3, as the code has it. When every individual of a non-empty population
    evaluates to fitness 0, the weighted sampling refuses the weights:
    [_select_parents] raises [ValueError], and so do the generation step and
    every run of at least one generation from that population. There is no
    fallback to uniform selection. *)
Theorem zero_fitness_selection_raises {G : Type} `{RandomSource G}
    (self : GeneticMelodyHarmonizer) (_population : list (list chord)) (g : G) :
  _population <> [] ->
  (forall s, s ∈ _population ->
     evaluate (fitness_evaluator self) s = Ok 0%Qc) ->
  _select_parents self _population g = Err ValueError
  /\ generation_step self _population g = Err ValueError
  /\ (forall n, evolve self (S n) _population g = Err ValueError).
Proof.
  intros Hne Hzero.
  pose proof (select_parents_all_zero self _population g Hne Hzero) as Hsel.
  split; [exact Hsel|].
  assert (Hstep : generation_step self _population g = Err ValueError).
  { unfold generation_step, rbind. by rewrite Hsel. }
  split; [exact Hstep|].
  intros n. cbn [evolve]. unfold rbind. by rewrite Hstep.
Qed.

Lemma zero_fitness_selection_raises_witness :
  _select_parents unweighted_harmonizer
    [["Cmaj7"; "G7"; "Am7"; "Dm7"]; ["Dm7"; "G7"; "Cmaj7"; "Cmaj7"]]
    sample_tape = Err ValueError.
Proof.
  refine (proj1 (zero_fitness_selection_raises (G:=list N) unweighted_harmonizer
            [["Cmaj7"; "G7"; "Am7"; "Dm7"]; ["Dm7"; "G7"; "Cmaj7"; "Cmaj7"]]
            sample_tape _ _)).
  - discriminate.
  - intros s Hs.
    repeat match goal with
           | H : _ ∈ _ :: _ |- _ => apply elem_of_cons in H as [->|H]
           | H : _ ∈ [] |- _ => by apply elem_of_nil in H
           end; vm_compute; f_equal; apply Qc_is_canon; reflexivity.
Defined.

(** C3 as stated fails: without weights every individual has fitness 0, and
    the first selection of [generate] raises [ValueError]. *)
Lemma zero_fitness_generate_fails :
  (forall s, s ∈ [["Cmaj7"; "G7"; "Am7"; "Dm7"]; ["Dm7"; "G7"; "Cmaj7"; "Cmaj7"]] ->
     evaluate (fitness_evaluator unweighted_harmonizer) s = Ok 0%Qc)
  /\ _select_parents unweighted_harmonizer
       [["Cmaj7"; "G7"; "Am7"; "Dm7"]; ["Dm7"; "G7"; "Cmaj7"; "Cmaj7"]]
       sample_tape = Err ValueError
  /\ generate unweighted_harmonizer 1 sample_tape = Err ValueError.
Proof.
  split; [|split; vm_compute; reflexivity].
  intros s Hs.
  repeat match goal with
         | H : _ ∈ _ :: _ |- _ => apply elem_of_cons in H as [->|H]
         | H : _ ∈ [] |- _ => by apply elem_of_nil in H
         end; vm_compute; f_equal; apply Qc_is_canon; reflexivity.
Qed.

(** ** Odd population size *)




(** * Further properties of the code *)

(** ** Loops that add a fixed amount a bounded number of times *)

Lemma nat2Qc_1 : nat2Qc 1 = 1%Qc.
Proof. unfold nat2Qc. simpl. apply Z2Qc_inj_1. Qed.

Lemma add_if (b : bool) (s p : Qc) :
  (if b then (s + p)%Qc else s) = (s + p * nat2Qc (if b then 1 else 0))%Qc.
Proof. destruct b; rewrite ?nat2Qc_1, ?nat2Qc_0; ring. Qed.

Lemma for_each_tally {A} (wf : A -> nat) (xs : list A)
    (body : A -> Qc -> result Qc) (p base : Qc) :
  (forall x s, x ∈ xs ->
     exists d, (d <= wf x)%nat /\ body x s = Ok (s + p * nat2Qc d)%Qc) ->
  exists j, (j <= sum_list (wf <$> xs))%nat
            /\ for_each xs body base = Ok (base + p * nat2Qc j)%Qc.
Proof.
  revert base. induction xs as [|x xs IH]; intros base Hbody.
  - exists 0%nat. split; [simpl; lia|]. simpl. f_equal. rewrite nat2Qc_0. ring.
  - destruct (Hbody x base) as (d & Hd & Hx); [left|].
    destruct (IH (base + p * nat2Qc d)%Qc) as (j & Hj & Hrest).
    { intros y s Hy. apply Hbody. by right. }
    exists (d + j)%nat. split; [rewrite fmap_cons; simpl; lia|].
    cbn [for_each]. rewrite Hx. cbn [bind]. rewrite Hrest. f_equal.
    rewrite nat2Qc_add. ring.
Qed.

Lemma for_each_raises {A S} (e : exn) (xs : list A)
    (body : A -> S -> result S) (s0 : S) :
  (forall x s, x ∈ xs -> is_ok (body x s) \/ body x s = Err e) ->
  (exists x, x ∈ xs /\ forall s, body x s = Err e) ->
  for_each xs body s0 = Err e.
Proof.
  revert s0. induction xs as [|x xs IH]; intros s0 Hall (y & Hy & Hbad).
  - by apply elem_of_nil in Hy.
  - cbn [for_each]. destruct (Hall x s0) as [[s' Hs']|Herr]; [left| |].
    + rewrite Hs'. cbn [bind]. apply elem_of_cons in Hy as [->|Hy].
      * rewrite Hbad in Hs'. discriminate.
      * apply IH; [|eauto]. intros z s Hz. apply Hall. by right.
    + by rewrite Herr.
Qed.

Lemma Qc_of_Z_pred (n k : nat) :
  (k <= n)%nat -> Qc_of_Z (Z.of_nat n - Z.of_nat k) = nat2Qc (n - k).
Proof. intros Hk. unfold nat2Qc. f_equal. lia. Qed.

Lemma one_minus_bounds (r w : Qc) :
  (0 <= r)%Qc -> (r <= w)%Qc -> (1 - w <= 1 - r)%Qc /\ (1 - r <= 1)%Qc.
Proof.
  intros H0 Hw. unfold Qcminus. split.
  - apply Qcplus_le_mono_l. by apply Qcopp_le_compat.
  - replace 1%Qc with (1 + - 0)%Qc at 2 by ring.
    apply Qcplus_le_mono_l. by apply Qcopp_le_compat.
Qed.

Lemma for_each_count {A} (f : A -> bool) (xs : list A)
    (body : A -> Qc -> result Qc) (p base : Qc) :
  (forall x s, x ∈ xs -> body x s = Ok (if f x then (s + p)%Qc else s)) ->
  for_each xs body base = Ok (base + p * nat2Qc (tally f xs))%Qc.
Proof.
  revert base. induction xs as [|x xs IH]; intros base Hbody.
  - simpl. f_equal. unfold tally. simpl. rewrite nat2Qc_0. ring.
  - cbn [for_each]. rewrite Hbody by left. cbn [bind].
    rewrite IH by (intros y s Hy; apply Hbody; by right). f_equal.
    unfold tally. cbn [List.filter].
    destruct (f x); cbn [length]; rewrite ?nat2Qc_S; ring.
Qed.

Lemma for_each_weighted {A} (w : A -> nat) (xs : list A)
    (body : A -> Qc -> result Qc) (p base : Qc) :
  (forall x s, x ∈ xs -> body x s = Ok (s + p * nat2Qc (w x))%Qc) ->
  for_each xs body base = Ok (base + p * nat2Qc (sum_list (w <$> xs)))%Qc.
Proof.
  revert base. induction xs as [|x xs IH]; intros base Hbody.
  - simpl. f_equal. rewrite nat2Qc_0. ring.
  - cbn [for_each]. rewrite Hbody by left. cbn [bind].
    rewrite IH by (intros y s Hy; apply Hbody; by right). f_equal.
    rewrite fmap_cons. simpl sum_list. rewrite nat2Qc_add. ring.
Qed.

Lemma share_pos (a : Z) (n : nat) :
  0 < a -> (0 < n)%nat -> (0 < Qc_of_Z a / nat2Qc n)%Qc.
Proof.
  intros Ha Hn. unfold Qcdiv. apply Qcmult_pos_pos.
  - rewrite <- Z2Qc_inj_0. by apply (proj1 (Z2Qc_inj_lt _ _)).
  - by apply Qcinv_pos, nat2Qc_pos.
Qed.

(** ** Harmonic flow *)

Lemma HarmonicFlow_exact (preferred_transitions : gmap string (list string))
    (chord_sequence : list chord) :
  (2 <= length chord_sequence)%nat ->
  (forall i c, (i + 1 < length chord_sequence)%nat ->
     chord_sequence !! i = Some c -> c ∈ dom preferred_transitions) ->
  HarmonicFlow.calculate preferred_transitions chord_sequence
  = Ok (0 + 1 / nat2Qc (length chord_sequence - 1)
            * nat2Qc (preferred_steps preferred_transitions chord_sequence))%Qc.
Proof.
  intros Hlen Hkeys. unfold HarmonicFlow.calculate.
  set (n := (length chord_sequence - 1)%nat).
  replace (Z.of_nat (length chord_sequence) - 1)
    with (Z.of_nat (length chord_sequence) - Z.of_nat 1) by lia.
  rewrite Qc_of_Z_pred by lia. fold n.
  unfold truediv. destruct (decide _) as [E|_].
  { pose proof (nat2Qc_pos n ltac:(lia)) as Hpos. rewrite E in Hpos.
    by apply Qclt_not_eq in Hpos. }
  cbn [bind]. unfold range.
  replace (Z.to_nat (Z.of_nat (length chord_sequence) - Z.of_nat 1)) with n by lia.
  unfold preferred_steps. fold n.
  apply for_each_count.
  intros i s Hi. apply elem_of_seq in Hi.
  destruct (index_lt chord_sequence (i + 1)) as (b & Hb & ->); [lia|].
  destruct (index_lt chord_sequence i) as (a & Ha & ->); [lia|].
  cbn [bind]. unfold getitem.
  assert (Hd : a ∈ dom preferred_transitions) by (apply (Hkeys i); [lia | done]).
  apply elem_of_dom in Hd as [pref Hp]. unfold chord in *.
  by rewrite Ha, Hb, Hp.
Qed.

(** X1. On two sequences of the same length, at least two, whose chords
    before the last are all keys of the preferred-transition table,
    HarmonicFlow returns a score for each; a score is never negative, it is
    positive exactly when some adjacent pair is a preferred transition, and
    the sequence with at least as many preferred transitions has a score at
    least as high. *)
Theorem HarmonicFlow_order
    (preferred_transitions : gmap string (list string))
    (chord_sequence other : list chord) :
  (2 <= length chord_sequence)%nat ->
  length other = length chord_sequence ->
  (forall i c, (i + 1 < length chord_sequence)%nat ->
     chord_sequence !! i = Some c -> c ∈ dom preferred_transitions) ->
  (forall i c, (i + 1 < length other)%nat ->
     other !! i = Some c -> c ∈ dom preferred_transitions) ->
  exists q q',
    HarmonicFlow.calculate preferred_transitions chord_sequence = Ok q
    /\ HarmonicFlow.calculate preferred_transitions other = Ok q'
    /\ (0 <= q)%Qc
    /\ ((0 < q)%Qc
        <-> (0 < preferred_steps preferred_transitions chord_sequence)%nat)
    /\ ((preferred_steps preferred_transitions chord_sequence
         <= preferred_steps preferred_transitions other)%nat -> (q <= q')%Qc).
Proof.
  intros Hlen Hsame Hkeys Hkeys'.
  rewrite (HarmonicFlow_exact _ chord_sequence Hlen Hkeys).
  rewrite (HarmonicFlow_exact _ other ltac:(lia) Hkeys'), Hsame.
  do 2 eexists. split; [reflexivity|]. split; [reflexivity|].
  rewrite !Qcplus_0_l.
  apply scaled_count_order.
  replace 1%Qc with (Qc_of_Z 1) by (apply Qc_is_canon; reflexivity).
  apply share_pos; lia.
Qed.

Lemma HarmonicFlow_order_witness :
  exists q q',
    HarmonicFlow.calculate Main.preferred_transitions
      ["Cmaj7"; "Dm7"; "G7"; "not a chord"] = Ok q
    /\ HarmonicFlow.calculate Main.preferred_transitions
         ["Dm7"; "G7"; "Cmaj7"; "Em7"] = Ok q'
    /\ (0 < q)%Qc /\ (q <= q')%Qc.
Proof.
  destruct (HarmonicFlow_order Main.preferred_transitions
              ["Cmaj7"; "Dm7"; "G7"; "not a chord"]
              ["Dm7"; "G7"; "Cmaj7"; "Em7"])
    as (q & q' & Hq & Hq' & _ & Hpos & Hle).
  - simpl. lia.
  - reflexivity.
  - intros i c Hi Hc. simpl in Hi.
    destruct i as [|[|[|i]]]; try lia; injection Hc as <-;
      apply elem_of_dom; eexists; vm_compute; reflexivity.
  - intros i c Hi Hc. simpl in Hi.
    destruct i as [|[|[|i]]]; try lia; injection Hc as <-;
      apply elem_of_dom; eexists; vm_compute; reflexivity.
  - exists q, q'. split; [exact Hq|]. split; [exact Hq'|]. split.
    + apply Hpos. vm_compute. lia.
    + apply Hle. vm_compute. lia.
Defined.

(** X2. HarmonicFlow on its edge inputs: the empty sequence scores 0, a
    single chord raises [ZeroDivisionError], and a sequence of at least two
    chords with a chord before the last that is not a key of the
    preferred-transition table raises [KeyError]. *)
Theorem HarmonicFlow_edge_cases
    (preferred_transitions : gmap string (list string))
    (chord_sequence : list chord) :
  HarmonicFlow.calculate preferred_transitions [] = Ok 0%Qc
  /\ (length chord_sequence = 1%nat ->
      HarmonicFlow.calculate preferred_transitions chord_sequence
      = Err ZeroDivisionError)
  /\ ((2 <= length chord_sequence)%nat ->
      (exists i c, (i + 1 < length chord_sequence)%nat
                   /\ chord_sequence !! i = Some c
                   /\ c ∉ dom preferred_transitions) ->
      HarmonicFlow.calculate preferred_transitions chord_sequence
      = Err KeyError).
Proof.
  split; [reflexivity|]. split.
  - intros Hlen. unfold HarmonicFlow.calculate. by rewrite Hlen.
  - intros Hlen (i & c & Hi & Hc & Hmiss). unfold HarmonicFlow.calculate.
    rewrite truediv_nonzero by lia. cbn [bind].
    apply for_each_raises.
    + intros k s Hk. apply elem_of_range in Hk.
      destruct (index_lt chord_sequence (k + 1)) as (b & _ & ->); [lia|].
      destruct (index_lt chord_sequence k) as (a & _ & ->); [lia|].
      cbn [bind]. unfold getitem.
      unfold chord in *.
      destruct (preferred_transitions !! a); cbn [bind];
        [left; unfold is_ok; eauto | by right].
    + exists i. split; [apply elem_of_range; lia|]. intros s.
      destruct (index_lt chord_sequence (i + 1)) as (b & _ & ->); [lia|].
      unfold index at 1. rewrite Hc. cbn [bind]. unfold getitem.
      apply not_elem_of_dom in Hmiss. unfold chord in *. by rewrite Hmiss.
Qed.

Lemma HarmonicFlow_edge_cases_witness :
  HarmonicFlow.calculate Main.preferred_transitions ["Cmaj7"]
  = Err ZeroDivisionError
  /\ HarmonicFlow.calculate Main.preferred_transitions
       ["Cmaj7"; "H7"; "Cmaj7"] = Err KeyError.
Proof.
  destruct (HarmonicFlow_edge_cases Main.preferred_transitions ["Cmaj7"])
    as (_ & Hone & _).
  destruct (HarmonicFlow_edge_cases Main.preferred_transitions
              ["Cmaj7"; "H7"; "Cmaj7"]) as (_ & _ & Hkey).
  split; [by apply Hone|]. apply Hkey; [simpl; lia|].
  exists 1%nat, "H7". split; [simpl; lia|]. split; [reflexivity|].
  apply not_elem_of_dom. vm_compute. reflexivity.
Defined.

(** ** Functional harmony *)

(** X3. FunctionalHarmony raises [IndexError] on the empty sequence; on any
    other sequence it returns 0, 1/3, 2/3 or 1. *)
Theorem FunctionalHarmony_values (chord_sequence : list chord) :
  (chord_sequence = [] ->
   FunctionalHarmony.calculate chord_sequence = Err IndexError)
  /\ (chord_sequence <> [] ->
      exists k, (k <= 3)%nat
                /\ FunctionalHarmony.calculate chord_sequence
                   = Ok (nat2Qc k / nat2Qc 3)%Qc).
Proof.
  split; [by intros ->|].
  intros Hne. unfold FunctionalHarmony.calculate.
  rewrite truediv_nonzero by lia. cbn [bind].
  destruct chord_sequence as [|c cs]; [done|].
  cbn [index lookup list_lookup bind].
  unfold index_last.
  destruct (last (c :: cs)) as [final|] eqn:Hlast.
  2:{ by apply last_None in Hlast. }
  cbn [bind].
  set (third := (1 / Qc_of_Z 3)%Qc).
  assert (H0 : 0%Qc = (nat2Qc 0 / nat2Qc 3)%Qc) by (apply Qc_is_canon; reflexivity).
  assert (H1 : (0 + third)%Qc = (nat2Qc 1 / nat2Qc 3)%Qc)
    by (apply Qc_is_canon; reflexivity).
  assert (H2 : (0 + third + third)%Qc = (nat2Qc 2 / nat2Qc 3)%Qc)
    by (apply Qc_is_canon; reflexivity).
  assert (H3 : (0 + third + third + third)%Qc = (nat2Qc 3 / nat2Qc 3)%Qc)
    by (apply Qc_is_canon; reflexivity).
  destruct (in_list c _), (in_list final _), (_ && _);
    rewrite ?H3, ?H2, ?H1;
    first [ by exists 3%nat; split; [lia|]
          | by exists 2%nat; split; [lia|]
          | by exists 1%nat; split; [lia|]
          | rewrite H0; by exists 0%nat; split; [lia|] ].
Qed.

Lemma FunctionalHarmony_values_witness :
  exists k, (k <= 3)%nat
            /\ FunctionalHarmony.calculate ["Fmaj7"; "G7"; "Cmaj7"]
               = Ok (nat2Qc k / nat2Qc 3)%Qc.
Proof.
  apply (proj2 (FunctionalHarmony_values ["Fmaj7"; "G7"; "Cmaj7"])).
  discriminate.
Defined.

(** ** Functional progressions *)

Lemma FunctionalProgressions_exact (common_progressions : list (list chord))
    (chord_sequence : list chord) :
  (3 <= length chord_sequence)%nat ->
  FunctionalProgressions.calculate common_progressions chord_sequence
  = Ok (0 + Qc_of_Z 3 / nat2Qc (length chord_sequence - 2)
            * nat2Qc (matching_windows common_progressions chord_sequence))%Qc.
Proof.
  intros Hlen. unfold FunctionalProgressions.calculate.
  set (n := (length chord_sequence - 2)%nat).
  replace (Z.of_nat (length chord_sequence) - 2)
    with (Z.of_nat (length chord_sequence) - Z.of_nat 2) by lia.
  rewrite Qc_of_Z_pred by lia. fold n.
  pose proof (nat2Qc_pos n ltac:(lia)) as Hpos.
  unfold truediv. destruct (decide _) as [E|_].
  { rewrite E in Hpos. by apply Qclt_not_eq in Hpos. }
  cbn [bind]. unfold range.
  replace (Z.to_nat (Z.of_nat (length chord_sequence) - Z.of_nat 2)) with n by lia.
  unfold matching_windows. fold n.
  by apply for_each_count.
Qed.

(** X4. On two sequences of the same length, at least three, whatever the
    chords and the table of progressions, FunctionalProgressions returns a
    score for each; a score is never negative, it is positive exactly when
    some window of three chords is a listed progression, and the sequence
    with at least as many matching windows has a score at least as high.
    The score is not confined to [0, 1]: a sequence of three chords that is
    a listed progression scores 3. *)
Theorem FunctionalProgressions_order (common_progressions : list (list chord))
    (chord_sequence other : list chord) :
  (3 <= length chord_sequence)%nat ->
  length other = length chord_sequence ->
  exists q q',
    FunctionalProgressions.calculate common_progressions chord_sequence = Ok q
    /\ FunctionalProgressions.calculate common_progressions other = Ok q'
    /\ (0 <= q)%Qc
    /\ ((0 < q)%Qc
        <-> (0 < matching_windows common_progressions chord_sequence)%nat)
    /\ ((matching_windows common_progressions chord_sequence
         <= matching_windows common_progressions other)%nat -> (q <= q')%Qc)
    /\ (length chord_sequence = 3%nat ->
        chord_sequence ∈ common_progressions -> q = Qc_of_Z 3).
Proof.
  intros Hlen Hsame.
  rewrite (FunctionalProgressions_exact _ chord_sequence Hlen).
  rewrite (FunctionalProgressions_exact _ other ltac:(lia)), Hsame.
  do 2 eexists. split; [reflexivity|]. split; [reflexivity|].
  rewrite !Qcplus_0_l.
  destruct (scaled_count_order
              (Qc_of_Z 3 / nat2Qc (length chord_sequence - 2))
              (matching_windows common_progressions chord_sequence)
              (matching_windows common_progressions other))
    as (H0 & Hpos & Hle); [apply share_pos; lia|].
  split; [exact H0|]. split; [exact Hpos|]. split; [exact Hle|].
  intros H3 Hin. unfold matching_windows. rewrite H3. cbn [Nat.sub seq].
  unfold tally. cbn [List.filter]. unfold slice.
  rewrite drop_0, take_ge by (rewrite H3; lia).
  rewrite bool_decide_eq_true_2 by done. cbn [length].
  apply Qc_is_canon. reflexivity.
Qed.

Lemma FunctionalProgressions_order_witness :
  exists q q',
    FunctionalProgressions.calculate Main.common_progressions
      ["Cmaj7"; "Dm7"; "G7"; "Cmaj7"] = Ok q
    /\ FunctionalProgressions.calculate Main.common_progressions
         ["Am7"; "Dm7"; "G7"; "Cmaj7"] = Ok q'
    /\ (0 < q)%Qc /\ (q <= q')%Qc.
Proof.
  destruct (FunctionalProgressions_order Main.common_progressions
              ["Cmaj7"; "Dm7"; "G7"; "Cmaj7"] ["Am7"; "Dm7"; "G7"; "Cmaj7"])
    as (q & q' & Hq & Hq' & _ & Hpos & Hle & _).
  - simpl. lia.
  - reflexivity.
  - exists q, q'. split; [exact Hq|]. split; [exact Hq'|]. split.
    + apply Hpos. vm_compute. lia.
    + apply Hle. vm_compute. lia.
Defined.

(** ** Non-diatonic chords *)

Lemma NonDiatonicChords_exact (chord_sequence : list chord) :
  chord_sequence <> [] ->
  NonDiatonicChords.calculate chord_sequence
  = Ok (0 + 1 / nat2Qc (length chord_sequence)
            * nat2Qc (non_diatonic_count chord_sequence))%Qc.
Proof.
  intros Hne.
  assert (Hlen : (0 < length chord_sequence)%nat)
    by (destruct chord_sequence; [done | simpl; lia]).
  unfold NonDiatonicChords.calculate. fold (nat2Qc (length chord_sequence)).
  pose proof (nat2Qc_pos _ Hlen) as Hpos.
  unfold truediv. destruct (decide _) as [E|_].
  { rewrite E in Hpos. by apply Qclt_not_eq in Hpos. }
  cbn [bind]. unfold non_diatonic_count. by apply for_each_count.
Qed.

(** X5. NonDiatonicChords raises [ZeroDivisionError] on the empty sequence.
    On two non-empty sequences of the same length, whatever their chords,
    it returns a score for each; a score is never negative, it is positive
    exactly when some chord of the sequence is a member of the hard-coded
    set, and the sequence with at least as many such chords has a score at
    least as high. *)
Theorem NonDiatonicChords_order (chord_sequence other : list chord) :
  NonDiatonicChords.calculate [] = Err ZeroDivisionError
  /\ (chord_sequence <> [] ->
      length other = length chord_sequence ->
      exists q q',
        NonDiatonicChords.calculate chord_sequence = Ok q
        /\ NonDiatonicChords.calculate other = Ok q'
        /\ (0 <= q)%Qc
        /\ ((0 < q)%Qc <-> (0 < non_diatonic_count chord_sequence)%nat)
        /\ ((non_diatonic_count chord_sequence <= non_diatonic_count other)%nat
            -> (q <= q')%Qc)).
Proof.
  split; [reflexivity|]. intros Hne Hsame.
  assert (Hne' : other <> []).
  { intros ->. destruct chord_sequence; [done | discriminate]. }
  rewrite (NonDiatonicChords_exact chord_sequence Hne).
  rewrite (NonDiatonicChords_exact other Hne'), Hsame.
  do 2 eexists. split; [reflexivity|]. split; [reflexivity|].
  rewrite !Qcplus_0_l.
  apply scaled_count_order.
  replace 1%Qc with (Qc_of_Z 1) by (apply Qc_is_canon; reflexivity).
  apply share_pos; [lia|]. destruct chord_sequence; [done | simpl; lia].
Qed.

Lemma NonDiatonicChords_order_witness :
  exists q q',
    NonDiatonicChords.calculate ["C7"; "unknown"] = Ok q
    /\ NonDiatonicChords.calculate ["D7"; "A7"] = Ok q'
    /\ (0 < q)%Qc /\ (q <= q')%Qc.
Proof.
  destruct (proj2 (NonDiatonicChords_order ["C7"; "unknown"] ["D7"; "A7"]))
    as (q & q' & Hq & Hq' & _ & Hpos & Hle).
  - discriminate.
  - reflexivity.
  - exists q, q'. split; [exact Hq|]. split; [exact Hq'|]. split.
    + apply Hpos. vm_compute. lia.
    + apply Hle. vm_compute. lia.
Defined.

(** ** Parallel fifths and chord repetitions *)

(** A score made of 1 and [j] equal penalties over [n]: it is at most 1,
    equal to 1 without penalties, and not higher than a score with fewer
    penalties. *)
Lemma penalty_order (n j k : nat) :
  (0 < n)%nat ->
  (1 - nat2Qc j / nat2Qc n <= 1)%Qc
  /\ (j = 0%nat -> (1 - nat2Qc j / nat2Qc n)%Qc = 1%Qc)
  /\ ((j <= k)%nat ->
      (1 - nat2Qc k / nat2Qc n <= 1 - nat2Qc j / nat2Qc n)%Qc).
Proof.
  intros Hn.
  pose proof (Qcinv_pos _ (nat2Qc_pos n Hn)) as Hinv.
  assert (Hshare : forall m, (0 <= nat2Qc m / nat2Qc n)%Qc).
  { intros m. unfold Qcdiv.
    apply Qcmult_nonneg_nonneg; [apply nat2Qc_nonneg | by apply Qclt_le_weak]. }
  split; [|split].
  - apply (one_minus_bounds _ _ (Hshare j) (Qcle_refl _)).
  - intros ->. rewrite nat2Qc_0. unfold Qcdiv, Qcminus. ring.
  - intros Hjk. unfold Qcminus. apply Qcplus_le_mono_l, Qcopp_le_compat.
    unfold Qcdiv.
    apply Qcmult_le_compat_r; [by apply nat2Qc_le | by apply Qclt_le_weak].
Qed.

Lemma ParallelFifths_exact (parallel_fifths : gset (gset string))
    (chord_sequence : list chord) :
  (2 <= length chord_sequence)%nat ->
  ParallelFifths.calculate parallel_fifths chord_sequence
  = Ok (1 - nat2Qc (parallel_pairs parallel_fifths chord_sequence)
            / nat2Qc (length chord_sequence - 1))%Qc.
Proof.
  intros Hlen. unfold ParallelFifths.calculate.
  set (n := (length chord_sequence - 1)%nat).
  replace (Z.of_nat (length chord_sequence) - 1)
    with (Z.of_nat (length chord_sequence) - Z.of_nat 1) by lia.
  rewrite Qc_of_Z_pred by lia. fold n.
  pose proof (nat2Qc_pos n ltac:(lia)) as Hpos.
  unfold truediv. destruct (decide _) as [E|_].
  { rewrite E in Hpos. by apply Qclt_not_eq in Hpos. }
  cbn [bind]. unfold range.
  replace (Z.to_nat (Z.of_nat (length chord_sequence) - Z.of_nat 1)) with n by lia.
  match goal with
  | |- context [for_each ?xs ?body ?base] =>
      rewrite (for_each_count
                 (fun i => match chord_sequence !! i,
                                 chord_sequence !! (i + 1)%nat with
                           | Some a, Some b =>
                               in_set ({[ a; b ]} : gset string) parallel_fifths
                           | _, _ => false
                           end)
                 xs body (Qc_of_Z (-1) / nat2Qc n)%Qc base)
  end.
  - f_equal. unfold parallel_pairs. fold n.
    replace (Qc_of_Z (-1)) with (- 1)%Qc by (apply Qc_is_canon; reflexivity).
    unfold Qcdiv, Qcminus. ring.
  - intros i s Hi. apply elem_of_seq in Hi.
    destruct (index_lt chord_sequence i) as (a & Ha & ->); [lia|].
    destruct (index_lt chord_sequence (i + 1)) as (b & Hb & ->); [lia|].
    cbn [bind]. by rewrite Ha, Hb.
Qed.

(** X6. ParallelFifths returns 1 on the empty sequence and raises
    [ZeroDivisionError] on a single chord. On two sequences of the same
    length, at least two, whatever the chords, it returns a score for each;
    a score is at most 1, it is 1 when no adjacent pair is in the
    parallel-fifths set, and the sequence with at least as many such pairs
    has a score at most as high. *)
Theorem ParallelFifths_order (parallel_fifths : gset (gset string))
    (chord_sequence other : list chord) :
  ParallelFifths.calculate parallel_fifths [] = Ok 1%Qc
  /\ (length chord_sequence = 1%nat ->
      ParallelFifths.calculate parallel_fifths chord_sequence
      = Err ZeroDivisionError)
  /\ ((2 <= length chord_sequence)%nat ->
      length other = length chord_sequence ->
      exists q q',
        ParallelFifths.calculate parallel_fifths chord_sequence = Ok q
        /\ ParallelFifths.calculate parallel_fifths other = Ok q'
        /\ (q <= 1)%Qc
        /\ (parallel_pairs parallel_fifths chord_sequence = 0%nat -> q = 1%Qc)
        /\ ((parallel_pairs parallel_fifths chord_sequence
             <= parallel_pairs parallel_fifths other)%nat -> (q' <= q)%Qc)).
Proof.
  split; [reflexivity|]. split.
  { intros Hlen. unfold ParallelFifths.calculate. by rewrite Hlen. }
  intros Hlen Hsame.
  rewrite (ParallelFifths_exact _ chord_sequence Hlen).
  rewrite (ParallelFifths_exact _ other ltac:(lia)), Hsame.
  do 2 eexists. split; [reflexivity|]. split; [reflexivity|].
  apply penalty_order. lia.
Qed.

Lemma ParallelFifths_order_witness :
  exists q q',
    ParallelFifths.calculate Main.chords_with_parallel_fifths
      ["Cmaj7"; "G7"; "Em7"] = Ok q
    /\ ParallelFifths.calculate Main.chords_with_parallel_fifths
         ["Cmaj7"; "Dm7"; "Em7"] = Ok q'
    /\ q = 1%Qc /\ (q' <= q)%Qc.
Proof.
  destruct (proj2 (proj2 (ParallelFifths_order Main.chords_with_parallel_fifths
              ["Cmaj7"; "G7"; "Em7"] ["Cmaj7"; "Dm7"; "Em7"])))
    as (q & q' & Hq & Hq' & _ & Hone & Hle).
  - simpl. lia.
  - reflexivity.
  - exists q, q'. split; [exact Hq|]. split; [exact Hq'|]. split.
    + apply Hone. vm_compute. reflexivity.
    + apply Hle. vm_compute. lia.
Defined.

Lemma tally_ext {A} (f g : A -> bool) (xs : list A) :
  (forall x, x ∈ xs -> f x = g x) -> tally f xs = tally g xs.
Proof.
  unfold tally. induction xs as [|x xs IH]; intros Hfg; [done|].
  cbn [List.filter]. rewrite (Hfg x) by left.
  assert (IH' : length (List.filter f xs) = length (List.filter g xs))
    by (apply IH; intros y Hy; apply Hfg; by right).
  destruct (g x); cbn [length]; by rewrite IH'.
Qed.

Lemma tally_map {A B} (f : B -> bool) (h : A -> B) (xs : list A) :
  tally f (map h xs) = tally (fun x => f (h x)) xs.
Proof.
  unfold tally. induction xs as [|x xs IH]; [done|].
  cbn [map List.filter]. destruct (f (h x)); cbn [length]; by rewrite IH.
Qed.

Lemma tally_rev {A} (f : A -> bool) (xs : list A) :
  tally f (rev xs) = tally f xs.
Proof. unfold tally. by rewrite List.filter_rev, length_rev. Qed.

Lemma rev_seq (n : nat) :
  map (fun i => (n - 1 - i)%nat) (seq 0 n) = rev (seq 0 n).
Proof.
  induction n as [|n IH]; [done|].
  rewrite seq_S at 2. rewrite rev_app_distr. cbn [rev app seq map].
  f_equal; [lia|]. rewrite <- seq_shift, map_map, <- IH.
  apply map_ext. intros i. lia.
Qed.

(** X7. ParallelFifths looks at unordered pairs, so it does not depend on
    the direction of the sequence: a sequence and its reversal get the same
    outcome. *)
Theorem ParallelFifths_reverse (parallel_fifths : gset (gset string))
    (chord_sequence : list chord) :
  ParallelFifths.calculate parallel_fifths (reverse chord_sequence)
  = ParallelFifths.calculate parallel_fifths chord_sequence.
Proof.
  destruct (decide (2 <= length chord_sequence)%nat) as [Hlen|Hlen].
  - rewrite !ParallelFifths_exact by (rewrite ?length_reverse; done).
    rewrite length_reverse. do 4 f_equal.
    unfold parallel_pairs. rewrite length_reverse.
    set (n := (length chord_sequence - 1)%nat).
    match goal with
    | |- tally _ _ = tally ?f _ => rewrite <- (tally_rev f), <- rev_seq, tally_map
    end.
    apply tally_ext. intros i Hi. apply elem_of_seq in Hi.
    rewrite !reverse_lookup by lia.
    replace (length chord_sequence - S i)%nat with (n - 1 - i + 1)%nat by lia.
    replace (length chord_sequence - S (i + 1))%nat with (n - 1 - i)%nat by lia.
    destruct (chord_sequence !! (n - 1 - i)%nat) as [a|],
             (chord_sequence !! (n - 1 - i + 1)%nat) as [b|]; try done.
    f_equal. apply union_comm_L.
  - destruct chord_sequence as [|a [|b cs]]; [done | done | simpl in Hlen; lia].
Qed.

(** X8. ChordRepetitions returns 1 on a sequence of fewer than two chords
    and raises [ZeroDivisionError] on a sequence of exactly two. On two
    sequences of the same length, at least three, it returns a score for
    each; a score is at most 1, it is 1 when the loop finds no repeat, and
    the sequence with at least as many repeats found has a score at most as
    high. *)
Theorem ChordRepetitions_order (chord_sequence other : list chord) :
  ((length chord_sequence < 2)%nat ->
   ChordRepetitions.calculate chord_sequence = Ok 1%Qc)
  /\ (length chord_sequence = 2%nat ->
      ChordRepetitions.calculate chord_sequence = Err ZeroDivisionError)
  /\ ((3 <= length chord_sequence)%nat ->
      length other = length chord_sequence ->
      exists q q',
        ChordRepetitions.calculate chord_sequence = Ok q
        /\ ChordRepetitions.calculate other = Ok q'
        /\ (q <= 1)%Qc
        /\ (repetition_count chord_sequence = 0%nat -> q = 1%Qc)
        /\ ((repetition_count chord_sequence <= repetition_count other)%nat
            -> (q' <= q)%Qc)).
Proof.
  split; [|split].
  - intros Hlen. destruct chord_sequence as [|a [|b cs]];
      [reflexivity | reflexivity | simpl in Hlen; lia].
  - apply ChordRepetitions_two_chords.
  - intros Hlen Hsame.
    rewrite (ChordRepetitions_calculate_eq chord_sequence Hlen).
    rewrite (ChordRepetitions_calculate_eq other ltac:(lia)).
    unfold repetition_score. rewrite Hsame.
    fold (repetition_count chord_sequence).
    pose proof (eq_refl (repetition_count other)) as Hfold.
    unfold repetition_count at 1 in Hfold. rewrite Hsame in Hfold.
    rewrite Hfold.
    do 2 eexists. split; [reflexivity|]. split; [reflexivity|].
    apply penalty_order. lia.
Qed.

Lemma ChordRepetitions_order_witness :
  exists q q',
    ChordRepetitions.calculate ["Dm7"; "G7"; "Cmaj7"; "Am7"] = Ok q
    /\ ChordRepetitions.calculate ["Am7"; "Am7"; "Am7"; "Am7"] = Ok q'
    /\ q = 1%Qc /\ (q' <= q)%Qc.
Proof.
  destruct (proj2 (proj2 (ChordRepetitions_order
              ["Dm7"; "G7"; "Cmaj7"; "Am7"] ["Am7"; "Am7"; "Am7"; "Am7"])))
    as (q & q' & Hq & Hq' & _ & Hone & Hle).
  - simpl. lia.
  - reflexivity.
  - exists q, q'. split; [exact Hq|]. split; [exact Hq'|]. split.
    + apply Hone. vm_compute. reflexivity.
    + apply Hle. vm_compute. lia.
Defined.

(** ** Voice leading *)

Lemma VoiceLeading_exact (chord_mappings : gmap string (list string))
    (chord_sequence : list chord) :
  (2 <= length chord_sequence)%nat ->
  Forall (fun c => c ∈ dom chord_mappings) chord_sequence ->
  VoiceLeading.calculate chord_mappings chord_sequence
  = Ok (0 + 1 / nat2Qc (4 * (length chord_sequence - 1))
            * nat2Qc (shared_notes chord_mappings chord_sequence))%Qc.
Proof.
  intros Hlen Hkeys. unfold VoiceLeading.calculate.
  set (n := (length chord_sequence - 1)%nat).
  replace (4 * (Z.of_nat (length chord_sequence) - 1))
    with (Z.of_nat (4 * n) - Z.of_nat 0) by lia.
  rewrite Qc_of_Z_pred by lia. rewrite Nat.sub_0_r.
  replace (Z.of_nat (length chord_sequence) - 1) with (Z.of_nat n) by lia.
  pose proof (nat2Qc_pos (4 * n) ltac:(lia)) as Hpos.
  unfold truediv. destruct (decide _) as [E|_].
  { rewrite E in Hpos. by apply Qclt_not_eq in Hpos. }
  cbn [bind]. unfold range. rewrite Nat2Z.id.
  unfold shared_notes. fold n.
  apply for_each_weighted.
  intros i s Hi. apply elem_of_seq in Hi.
  destruct (index_lt chord_sequence i) as (a & Ha & ->); [lia|].
  destruct (index_lt chord_sequence (i + 1)) as (b & Hb & ->); [lia|].
  pose proof (proj1 (Forall_forall _ _) Hkeys) as Hin.
  assert (Hda : a ∈ dom chord_mappings)
    by (apply Hin, list_elem_of_lookup; eauto).
  assert (Hdb : b ∈ dom chord_mappings)
    by (apply Hin, list_elem_of_lookup; eauto).
  apply elem_of_dom in Hda as [na Hna]. apply elem_of_dom in Hdb as [nb Hnb].
  unfold chord in *. cbn [bind]. unfold getitem.
  rewrite Ha, Hb, Hna, Hnb. cbn [bind].
  by apply for_each_count.
Qed.

(** X9. VoiceLeading returns 0 on the empty sequence and raises
    [ZeroDivisionError] on a single chord. On two sequences of the same
    length, at least two, whose chords are all keys of the chord table, it
    returns a score for each; a score is never negative, it is positive
    exactly when some chord shares a note with the chord that follows it,
    and the sequence with at least as many shared notes has a score at
    least as high. *)
Theorem VoiceLeading_order (chord_mappings : gmap string (list string))
    (chord_sequence other : list chord) :
  VoiceLeading.calculate chord_mappings [] = Ok 0%Qc
  /\ (length chord_sequence = 1%nat ->
      VoiceLeading.calculate chord_mappings chord_sequence
      = Err ZeroDivisionError)
  /\ ((2 <= length chord_sequence)%nat ->
      length other = length chord_sequence ->
      Forall (fun c => c ∈ dom chord_mappings) chord_sequence ->
      Forall (fun c => c ∈ dom chord_mappings) other ->
      exists q q',
        VoiceLeading.calculate chord_mappings chord_sequence = Ok q
        /\ VoiceLeading.calculate chord_mappings other = Ok q'
        /\ (0 <= q)%Qc
        /\ ((0 < q)%Qc <-> (0 < shared_notes chord_mappings chord_sequence)%nat)
        /\ ((shared_notes chord_mappings chord_sequence
             <= shared_notes chord_mappings other)%nat -> (q <= q')%Qc)).
Proof.
  split; [reflexivity|]. split.
  { intros Hlen. unfold VoiceLeading.calculate. by rewrite Hlen. }
  intros Hlen Hsame Hkeys Hkeys'.
  rewrite (VoiceLeading_exact _ chord_sequence Hlen Hkeys).
  rewrite (VoiceLeading_exact _ other ltac:(lia) Hkeys'), Hsame.
  do 2 eexists. split; [reflexivity|]. split; [reflexivity|].
  rewrite !Qcplus_0_l.
  apply scaled_count_order.
  replace 1%Qc with (Qc_of_Z 1) by (apply Qc_is_canon; reflexivity).
  apply share_pos; lia.
Qed.

Lemma VoiceLeading_order_witness :
  exists q q',
    VoiceLeading.calculate Main.chord_mappings ["Dm7"; "G7"; "Cmaj7"] = Ok q
    /\ VoiceLeading.calculate Main.chord_mappings ["Cmaj7"; "Em7"; "G7"] = Ok q'
    /\ (0 < q)%Qc /\ (q <= q')%Qc.
Proof.
  destruct (proj2 (proj2 (VoiceLeading_order Main.chord_mappings
              ["Dm7"; "G7"; "Cmaj7"] ["Cmaj7"; "Em7"; "G7"])))
    as (q & q' & Hq & Hq' & _ & Hpos & Hle).
  - simpl. lia.
  - reflexivity.
  - repeat constructor; apply elem_of_dom; eexists; vm_compute; reflexivity.
  - repeat constructor; apply elem_of_dom; eexists; vm_compute; reflexivity.
  - exists q, q'. split; [exact Hq|]. split; [exact Hq'|]. split.
    + apply Hpos. vm_compute. lia.
    + apply Hle. vm_compute. lia.
Defined.

(** X10. VoiceLeading raises [KeyError] on a sequence of at least two chords
    one of which is not a key of the chord table. *)
Theorem VoiceLeading_missing_chord (chord_mappings : gmap string (list string))
    (chord_sequence : list chord) (c : chord) :
  (2 <= length chord_sequence)%nat ->
  c ∈ chord_sequence -> c ∉ dom chord_mappings ->
  VoiceLeading.calculate chord_mappings chord_sequence = Err KeyError.
Proof.
  intros Hlen Hc Hmiss. unfold VoiceLeading.calculate.
  rewrite truediv_nonzero by lia. cbn [bind].
  apply not_elem_of_dom in Hmiss.
  apply list_elem_of_lookup in Hc as [k Hk].
  pose proof (lookup_lt_Some _ _ _ Hk) as Hklt.
  apply for_each_raises.
  - intros i s Hi. apply elem_of_range in Hi.
    destruct (index_lt chord_sequence i) as (a & _ & ->); [lia|].
    destruct (index_lt chord_sequence (i + 1)) as (b & _ & ->); [lia|].
    cbn [bind]. unfold getitem, chord in *.
    destruct (chord_mappings !! a) as [na|]; cbn [bind]; [|by right].
    destruct (chord_mappings !! b) as [nb|]; cbn [bind]; [|by right].
    left.
    destruct (for_each_tally (fun _ => 1%nat) na
                (fun n0 score =>
                   Ok (if in_list n0 nb
                       then (score + 1 / Qc_of_Z (4 * (Z.of_nat (length chord_sequence) - 1)))%Qc
                       else score))
                (1 / Qc_of_Z (4 * (Z.of_nat (length chord_sequence) - 1)))%Qc s)
      as (d & _ & ->); [|unfold is_ok; eauto].
    intros x t Hx. eexists. split; [|by rewrite add_if].
    destruct (in_list x nb); lia.
  - destruct (decide (k + 1 < length chord_sequence)%nat) as [Hin|Hlast].
    + exists k. split; [apply elem_of_range; lia|]. intros s.
      unfold index at 1. rewrite Hk. cbn [bind]. unfold getitem, chord in *.
      by rewrite Hmiss.
    + exists (k - 1)%nat. split; [apply elem_of_range; lia|]. intros s.
      destruct (index_lt chord_sequence (k - 1)) as (a & _ & ->); [lia|].
      cbn [bind]. unfold getitem, chord in *.
      destruct (chord_mappings !! a) as [na|]; cbn [bind]; [|reflexivity].
      replace (k - 1 + 1)%nat with k by lia.
      unfold index. rewrite Hk. cbn [bind]. by rewrite Hmiss.
Qed.

Lemma VoiceLeading_missing_chord_witness :
  VoiceLeading.calculate Main.chord_mappings ["Cmaj7"; "G7"; "H7"] = Err KeyError.
Proof.
  apply (VoiceLeading_missing_chord Main.chord_mappings ["Cmaj7"; "G7"; "H7"] "H7").
  - simpl. lia.
  - do 2 right. left.
  - apply not_elem_of_dom. vm_compute. reflexivity.
Defined.

(** ** Chord variety *)

(** X11. ChordVariety raises [ZeroDivisionError] exactly when the chord table
    is empty; otherwise it returns a non-negative value, positive on a
    non-empty sequence, that depends only on the set of chords used: two
    sequences with the same members score the same. *)
Theorem ChordVariety_depends_on_members
    (chord_mappings : gmap string (list string)) (s1 s2 : list chord) :
  (chord_mappings = ∅ ->
   ChordVariety.calculate chord_mappings s1 = Err ZeroDivisionError)
  /\ (chord_mappings <> ∅ ->
      exists q, ChordVariety.calculate chord_mappings s1 = Ok q
                /\ (0 <= q)%Qc /\ (s1 <> [] -> (0 < q)%Qc))
  /\ ((forall c, c ∈ s1 <-> c ∈ s2) ->
      ChordVariety.calculate chord_mappings s1
      = ChordVariety.calculate chord_mappings s2).
Proof.
  split; [|split].
  - intros ->. reflexivity.
  - intros Hne. unfold ChordVariety.calculate.
    assert (Ht : (0 < size chord_mappings)%nat).
    { destruct (decide (size chord_mappings = 0%nat)) as [E|]; [|lia].
      by apply map_size_empty_inv in E. }
    pose proof (nat2Qc_pos _ Ht) as Hpos.
    pose proof (Qcinv_pos _ Hpos) as Hinv.
    unfold truediv. destruct (decide _) as [E|_].
    { rewrite E in Hpos. by apply Qclt_not_eq in Hpos. }
    eexists. split; [reflexivity|]. unfold Qcdiv. split.
    + apply Qcmult_nonneg_nonneg; [apply nat2Qc_nonneg | by apply Qclt_le_weak].
    + intros Hs. apply Qcmult_pos_pos; [|done]. apply nat2Qc_pos.
      destruct s1 as [|c cs]; [done|].
      destruct (decide (size (list_to_set (c :: cs) : gset string) = 0%nat))
        as [E|]; [|lia].
      apply size_empty_inv in E.
      assert (Hc : c ∈ (list_to_set (c :: cs) : gset string))
        by (apply elem_of_list_to_set; left).
      rewrite E in Hc. by apply elem_of_empty in Hc.
  - intros Hsame. unfold ChordVariety.calculate.
    replace (list_to_set s2 : gset string) with (list_to_set s1 : gset string);
      [reflexivity|].
    apply set_eq. intros c. rewrite !elem_of_list_to_set. apply Hsame.
Qed.

Lemma ChordVariety_depends_on_members_witness :
  ChordVariety.calculate Main.chord_mappings ["Dm7"; "G7"; "Dm7"]
  = ChordVariety.calculate Main.chord_mappings ["G7"; "Dm7"].
Proof.
  apply (ChordVariety_depends_on_members Main.chord_mappings
           ["Dm7"; "G7"; "Dm7"] ["G7"; "Dm7"]).
  intros c. rewrite !elem_of_cons, !elem_of_nil. tauto.
Defined.

(** ** Chord-melody congruence *)

Lemma sum_durations_beats (ns : list note) : sum_durations ns = beats ns.
Proof.
  unfold sum_durations, beats.
  assert (Hgen : forall acc,
    foldl (fun a n => a + snd n) acc ns
    = acc + foldr (fun n a => snd n + a) 0 ns).
  { induction ns as [|n ns IH]; intros acc; simpl; [lia|]. rewrite IH. lia. }
  rewrite Hgen. lia.
Qed.

Lemma beats_nonneg (ns : list note) : durations_positive ns -> 0 <= beats ns.
Proof. induction 1; simpl; lia. Qed.

Lemma beats_zero (ns : list note) :
  durations_positive ns -> beats ns <= 0 -> ns = [].
Proof.
  destruct 1 as [|n ns Hn Hns]; [done|]. simpl.
  pose proof (beats_nonneg ns Hns). lia.
Qed.

(** One pass of the inner loop: the notes the chord covers are removed from
    the front of the melody, their matching beats added to the score; the
    pass stops on the empty melody or once four beats are covered. *)
Lemma consume_spec (chord_mappings : gmap string (list string)) (c : chord)
    (rest : list note) (bar_duration score : Z) :
  c ∈ dom chord_mappings ->
  pitches_nonempty rest -> durations_positive rest ->
  exists score' rest',
    ChordMelodyCongruence.consume chord_mappings c bar_duration score rest
    = Ok (score', rest')
    /\ pitches_nonempty rest' /\ durations_positive rest'
    /\ score <= score' /\ score' + beats rest' <= score + beats rest
    /\ (rest' = [] \/ beats rest' <= beats rest - (4 - bar_duration)).
Proof.
  intros Hc. apply elem_of_dom in Hc as [cn Hcn].
  revert bar_duration score.
  induction rest as [|[pitch d] rest IH]; intros bd score Hp Hd.
  - exists score, []. simpl. repeat split; try done; try lia. by left.
  - apply Forall_cons in Hp as [Hp1 Hp]. apply Forall_cons in Hd as [Hd1 Hd].
    simpl in Hp1, Hd1. cbn [ChordMelodyCongruence.consume].
    destruct (decide (bd < 4)) as [Hbd|Hbd].
    + destruct pitch as [|a pitch]; [done|]. cbn [str_first bind].
      unfold getitem, chord in *. rewrite Hcn. cbn [bind].
      destruct (in_list _ cn);
        [ destruct (IH (bd + d) (score + d) Hp Hd)
            as (score' & rest' & -> & Hp' & Hd' & Hlo & Hhi & Hstop)
        | destruct (IH (bd + d) score Hp Hd)
            as (score' & rest' & -> & Hp' & Hd' & Hlo & Hhi & Hstop) ];
        exists score', rest'; cbn [beats foldr snd]; fold (beats rest);
        (split; [reflexivity|]); (split; [done|]); (split; [done|]);
        (split; [lia|]); (split; [lia|]);
        (destruct Hstop as [Hstop|Hstop]; [by left | right; lia]).
    + exists score, ((pitch, d) :: rest).
      split; [reflexivity|]. split; [by constructor|]. split; [by constructor|].
      unfold note in *. split; [lia|]. split; [lia|]. right. lia.
Qed.

Lemma congruence_loop (chord_mappings : gmap string (list string))
    (chord_sequence : list chord) (score : Z) (rest : list note) :
  Forall (fun c => c ∈ dom chord_mappings) chord_sequence ->
  pitches_nonempty rest -> durations_positive rest ->
  exists score' rest',
    for_each chord_sequence
      (fun c st =>
         ChordMelodyCongruence.consume chord_mappings c 0 (fst st) (snd st))
      (score, rest)
    = Ok (score', rest')
    /\ pitches_nonempty rest' /\ durations_positive rest'
    /\ score <= score' /\ score' + beats rest' <= score + beats rest
    /\ (beats rest <= 4 * Z.of_nat (length chord_sequence) -> rest' = []).
Proof.
  revert score rest.
  induction chord_sequence as [|c cs IH]; intros score rest Hkeys Hp Hd.
  - exists score, rest. simpl. repeat split; try done; try lia.
    intros Hb. by apply beats_zero.
  - apply Forall_cons in Hkeys as [Hc Hkeys]. cbn [for_each fst snd].
    destruct (consume_spec chord_mappings c rest 0 score Hc Hp Hd)
      as (s1 & r1 & -> & Hp1 & Hd1 & Hlo1 & Hhi1 & Hstop1).
    cbn [bind].
    destruct (IH s1 r1 Hkeys Hp1 Hd1)
      as (s2 & r2 & -> & Hp2 & Hd2 & Hlo2 & Hhi2 & Hstop2).
    exists s2, r2. repeat split; try done; try lia.
    intros Hb. apply Hstop2.
    destruct Hstop1 as [->|Hstop1]; [simpl; lia|].
    rewrite length_cons in Hb. lia.
Qed.

Lemma Zratio_in_unit_interval (a b : Z) :
  0 <= a <= b -> 0 < b ->
  (0 <= Qc_of_Z a / Qc_of_Z b)%Qc /\ (Qc_of_Z a / Qc_of_Z b <= 1)%Qc.
Proof.
  intros Ha Hb.
  replace a with (Z.of_nat (Z.to_nat a)) by lia.
  replace b with (Z.of_nat (Z.to_nat b)) by lia.
  apply ratio_in_unit_interval; lia.
Qed.

(** X12. For a melody built from at least one note, with pitches that have
    a first character and positive durations, ChordMelodyCongruence returns
    a value between 0 and 1 on every sequence of chords that are keys of the
    chord table. *)
Theorem ChordMelodyCongruence_in_unit_interval (ns : list note)
    (melody_data : MelodyData) (chord_mappings : gmap string (list string))
    (chord_sequence : list chord) :
  MelodyData_init ns = Ok melody_data ->
  well_formed_melody ns ->
  Forall (fun c => c ∈ dom chord_mappings) chord_sequence ->
  exists q, ChordMelodyCongruence.calculate melody_data chord_mappings
              chord_sequence = Ok q
            /\ (0 <= q)%Qc /\ (q <= 1)%Qc.
Proof.
  intros [= <-] (Hne & Hp & Hd) Hkeys.
  unfold ChordMelodyCongruence.calculate. cbn [notes duration].
  destruct (congruence_loop chord_mappings chord_sequence 0 ns Hkeys Hp Hd)
    as (score & rest & -> & _ & Hd' & Hlo & Hhi & _).
  cbn [bind fst]. rewrite sum_durations_beats.
  pose proof (beats_nonneg rest Hd').
  assert (Hpos : 0 < beats ns).
  { destruct (decide (beats ns <= 0)) as [Hz|]; [|lia].
    by apply beats_zero in Hz. }
  rewrite truediv_nonzero by lia.
  eexists. split; [reflexivity|].
  apply Zratio_in_unit_interval; lia.
Qed.

Lemma ChordMelodyCongruence_in_unit_interval_witness :
  exists q, ChordMelodyCongruence.calculate two_bar_melody Main.chord_mappings
              ["Cmaj7"; "Fmaj7"; "G7"; "Cmaj7"] = Ok q
            /\ (0 <= q)%Qc /\ (q <= 1)%Qc.
Proof.
  apply (ChordMelodyCongruence_in_unit_interval (notes two_bar_melody)).
  - reflexivity.
  - split; [discriminate|].
    split; repeat constructor; simpl; (discriminate || lia).
  - repeat constructor; apply elem_of_dom; eexists; vm_compute; reflexivity.
Defined.

Lemma for_each_app {A S} (xs ys : list A) (body : A -> S -> result S) (s : S) :
  for_each (xs ++ ys) body s
  = let* s' := for_each xs body s in for_each ys body s'.
Proof.
  revert s. induction xs as [|x xs IH]; intros s; simpl; [done|].
  destruct (body x s); simpl; [apply IH | done].
Qed.

Lemma congruence_loop_exhausted (chord_mappings : gmap string (list string))
    (chord_sequence : list chord) (score : Z) :
  for_each chord_sequence
    (fun c st =>
       ChordMelodyCongruence.consume chord_mappings c 0 (fst st) (snd st))
    (score, [])
  = Ok (score, []).
Proof. induction chord_sequence as [|c cs IH]; simpl; [done | exact IH]. Qed.

(** X13. Each chord covers at least four beats of the melody, so once the
    leading chords cover the whole melody the chords after them are never
    looked at: for a well-formed melody and leading chords [covering] from
    the chord table with [duration <= 4 * len(covering)], the score of
    [covering + tail] is the score of [covering], whatever [tail] holds, even
    names that are not in the chord table. In particular only the first
    [number_of_bars + 1] chords of a sequence are ever looked at. *)
Theorem ChordMelodyCongruence_ignores_tail (ns : list note)
    (melody_data : MelodyData) (chord_mappings : gmap string (list string)) :
  MelodyData_init ns = Ok melody_data ->
  well_formed_melody ns ->
  (forall covering tail : list chord,
     Forall (fun c => c ∈ dom chord_mappings) covering ->
     duration melody_data <= 4 * Z.of_nat (length covering) ->
     ChordMelodyCongruence.calculate melody_data chord_mappings
       (covering ++ tail)
     = ChordMelodyCongruence.calculate melody_data chord_mappings covering)
  /\ (forall chord_sequence : list chord,
        Forall (fun c => c ∈ dom chord_mappings)
          (take (Z.to_nat (number_of_bars melody_data + 1)) chord_sequence) ->
        ChordMelodyCongruence.calculate melody_data chord_mappings
          chord_sequence
        = ChordMelodyCongruence.calculate melody_data chord_mappings
            (take (Z.to_nat (number_of_bars melody_data + 1)) chord_sequence)).
Proof.
  intros [= <-] (Hne & Hp & Hd).
  assert (Htail : forall covering tail : list chord,
    Forall (fun c => c ∈ dom chord_mappings) covering ->
    sum_durations ns <= 4 * Z.of_nat (length covering) ->
    ChordMelodyCongruence.calculate
      {| notes := ns; duration := sum_durations ns;
         number_of_bars := sum_durations ns / 4 |} chord_mappings
      (covering ++ tail)
    = ChordMelodyCongruence.calculate
        {| notes := ns; duration := sum_durations ns;
           number_of_bars := sum_durations ns / 4 |} chord_mappings covering).
  { intros covering tail Hkeys Hcover.
    unfold ChordMelodyCongruence.calculate. cbn [notes duration] in *.
    rewrite sum_durations_beats in Hcover.
    rewrite for_each_app.
    destruct (congruence_loop chord_mappings covering 0 ns Hkeys Hp Hd)
      as (score & rest & -> & _ & _ & _ & _ & Hstop).
    rewrite (Hstop Hcover). cbn [bind].
    by rewrite congruence_loop_exhausted. }
  split; [exact Htail|].
  intros chord_sequence Hkeys. cbn [number_of_bars] in *.
  set (k := Z.to_nat (sum_durations ns / 4 + 1)) in *.
  destruct (decide (k <= length chord_sequence)%nat) as [Hk|Hk].
  - rewrite <- (take_drop k chord_sequence) at 1.
    apply Htail; [exact Hkeys|].
    rewrite length_take, Nat.min_l by exact Hk.
    pose proof (beats_nonneg ns Hd) as Hnonneg.
    rewrite <- sum_durations_beats in Hnonneg.
    pose proof (Z.mod_pos_bound (sum_durations ns) 4 ltac:(lia)) as Hmod.
    pose proof (Z.div_mod (sum_durations ns) 4 ltac:(lia)) as Hdiv.
    assert (0 <= sum_durations ns / 4) by (apply Z.div_pos; lia).
    unfold k. lia.
  - by rewrite take_ge by lia.
Qed.

Lemma ChordMelodyCongruence_ignores_tail_witness :
  ChordMelodyCongruence.calculate two_bar_melody Main.chord_mappings
    (["Cmaj7"; "Fmaj7"] ++ ["not a chord"; "G7"])
  = ChordMelodyCongruence.calculate two_bar_melody Main.chord_mappings
      ["Cmaj7"; "Fmaj7"]
  /\ ChordMelodyCongruence.calculate two_bar_melody Main.chord_mappings
       ["Cmaj7"; "Fmaj7"; "G7"; "not a chord"]
     = ChordMelodyCongruence.calculate two_bar_melody Main.chord_mappings
         ["Cmaj7"; "Fmaj7"; "G7"].
Proof.
  destruct (ChordMelodyCongruence_ignores_tail (notes two_bar_melody)
              two_bar_melody Main.chord_mappings) as [Htail Htake].
  - reflexivity.
  - split; [discriminate|].
    split; repeat constructor; simpl; (discriminate || lia).
  - split.
    + apply Htail; [|simpl; lia].
      repeat constructor; apply elem_of_dom; eexists; vm_compute; reflexivity.
    + apply (Htake ["Cmaj7"; "Fmaj7"; "G7"; "not a chord"]).
      repeat constructor; apply elem_of_dom; eexists; vm_compute; reflexivity.
Defined.

(** X14. ChordMelodyCongruence raises [KeyError] when the first chord is not
    a key of the chord table and the melody starts with a note whose pitch
    has a first character; it raises [ZeroDivisionError] on the empty
    sequence when the melody lasts zero beats. *)
Theorem ChordMelodyCongruence_errors (melody_data : MelodyData)
    (chord_mappings : gmap string (list string)) (c : chord)
    (chord_sequence : list chord) (pitch : string) (d : Z) (rest : list note) :
  (notes melody_data = (pitch, d) :: rest -> pitch <> "" ->
   c ∉ dom chord_mappings ->
   ChordMelodyCongruence.calculate melody_data chord_mappings
     (c :: chord_sequence) = Err KeyError)
  /\ (duration melody_data = 0 ->
      ChordMelodyCongruence.calculate melody_data chord_mappings []
      = Err ZeroDivisionError).
Proof.
  split.
  - intros Hnotes Hpitch Hmiss. unfold ChordMelodyCongruence.calculate.
    rewrite Hnotes. cbn [for_each fst snd ChordMelodyCongruence.consume].
    destruct (decide (0 < 4)) as [_|]; [|lia].
    destruct pitch as [|a pitch]; [done|]. cbn [str_first bind].
    apply not_elem_of_dom in Hmiss. unfold getitem, chord in *.
    by rewrite Hmiss.
  - intros Hzero. unfold ChordMelodyCongruence.calculate. cbn [for_each bind].
    by rewrite Hzero.
Qed.

Lemma ChordMelodyCongruence_errors_witness :
  ChordMelodyCongruence.calculate two_bar_melody Main.chord_mappings
    ["H7"; "Cmaj7"] = Err KeyError.
Proof.
  refine (proj1 (ChordMelodyCongruence_errors two_bar_melody
            Main.chord_mappings "H7" ["Cmaj7"] "C5" 1 _) eq_refl _ _).
  - discriminate.
  - apply not_elem_of_dom. vm_compute. reflexivity.
Defined.

(** ** Where the fitness is defined *)

Lemma unit_share_nonneg (z : Z) : 0 < z -> (0 <= 1 / Qc_of_Z z)%Qc.
Proof.
  intros Hz. unfold Qcdiv. rewrite Qcmult_1_l. apply Qclt_le_weak, Qcinv_pos.
  rewrite <- Z2Qc_inj_0. apply (proj1 (Z2Qc_inj_lt _ _)). lia.
Qed.

Lemma add_share_nonneg (b : bool) (s p : Qc) :
  (0 <= s)%Qc -> (0 <= p)%Qc -> (0 <= (if b then (s + p)%Qc else s))%Qc.
Proof. intros Hs Hp. destruct b; [by apply Qcplus_nonneg_nonneg | done]. Qed.

Lemma HarmonicFlow_nonneg (preferred_transitions : gmap string (list string))
    (chord_sequence : list chord) :
  (2 <= length chord_sequence)%nat ->
  Forall (fun c => c ∈ dom preferred_transitions) chord_sequence ->
  exists q, HarmonicFlow.calculate preferred_transitions chord_sequence = Ok q
            /\ (0 <= q)%Qc.
Proof.
  intros Hlen Hkeys. unfold HarmonicFlow.calculate.
  rewrite truediv_nonzero by lia. cbn [bind].
  pose proof (unit_share_nonneg (Z.of_nat (length chord_sequence) - 1)
                ltac:(lia)) as Hp.
  apply for_each_inv; [apply Qcle_refl|].
  intros i s Hi Hs. apply elem_of_range in Hi.
  destruct (index_lt chord_sequence (i + 1)) as (b & _ & ->); [lia|].
  destruct (index_lt chord_sequence i) as (a & Ha & ->); [lia|].
  assert (Hd : a ∈ dom preferred_transitions).
  { apply (proj1 (Forall_forall _ _) Hkeys), list_elem_of_lookup. eauto. }
  apply elem_of_dom in Hd as [pref Hpref].
  cbn [bind]. unfold getitem, chord in *. rewrite Hpref. cbn [bind].
  eexists. split; [reflexivity|]. by apply add_share_nonneg.
Qed.

Lemma VoiceLeading_nonneg (chord_mappings : gmap string (list string))
    (chord_sequence : list chord) :
  (2 <= length chord_sequence)%nat ->
  Forall (fun c => c ∈ dom chord_mappings) chord_sequence ->
  exists q, VoiceLeading.calculate chord_mappings chord_sequence = Ok q
            /\ (0 <= q)%Qc.
Proof.
  intros Hlen Hkeys. unfold VoiceLeading.calculate.
  rewrite truediv_nonzero by lia. cbn [bind].
  pose proof (unit_share_nonneg (4 * (Z.of_nat (length chord_sequence) - 1))
                ltac:(lia)) as Hp.
  apply for_each_inv; [apply Qcle_refl|].
  intros i s Hi Hs. apply elem_of_range in Hi.
  destruct (index_lt chord_sequence i) as (a & Ha & ->); [lia|].
  destruct (index_lt chord_sequence (i + 1)) as (b & Hb & ->); [lia|].
  pose proof (proj1 (Forall_forall _ _) Hkeys) as Hin.
  assert (Hda : a ∈ dom chord_mappings)
    by (apply Hin, list_elem_of_lookup; eauto).
  assert (Hdb : b ∈ dom chord_mappings)
    by (apply Hin, list_elem_of_lookup; eauto).
  apply elem_of_dom in Hda as [na Hna]. apply elem_of_dom in Hdb as [nb Hnb].
  unfold chord in *. cbn [bind]. unfold getitem. rewrite Hna, Hnb. cbn [bind].
  apply for_each_inv; [exact Hs|].
  intros x t _ Ht. eexists. split; [reflexivity|]. by apply add_share_nonneg.
Qed.

Lemma FunctionalHarmony_nonneg (chord_sequence : list chord) :
  chord_sequence <> [] ->
  exists q, FunctionalHarmony.calculate chord_sequence = Ok q /\ (0 <= q)%Qc.
Proof.
  intros Hne. unfold FunctionalHarmony.calculate.
  rewrite truediv_nonzero by lia. cbn [bind].
  destruct chord_sequence as [|c cs]; [done|].
  cbn [index lookup list_lookup bind]. unfold index_last.
  destruct (last (c :: cs)) as [final|] eqn:Hlast.
  2:{ by apply last_None in Hlast. }
  cbn [bind]. eexists. split; [reflexivity|].
  pose proof (unit_share_nonneg 3 ltac:(lia)) as Hp.
  repeat apply add_share_nonneg; try done; apply Qcle_refl.
Qed.

Lemma FunctionalProgressions_nonneg (common_progressions : list (list chord))
    (chord_sequence : list chord) :
  (3 <= length chord_sequence)%nat ->
  exists q, FunctionalProgressions.calculate common_progressions chord_sequence
            = Ok q /\ (0 <= q)%Qc.
Proof.
  intros Hlen. unfold FunctionalProgressions.calculate.
  rewrite truediv_nonzero by lia. cbn [bind].
  assert (Hp : (0 <= Qc_of_Z 3 / Qc_of_Z (Z.of_nat (length chord_sequence) - 2))%Qc).
  { pose proof (unit_share_nonneg (Z.of_nat (length chord_sequence) - 2)
                  ltac:(lia)) as H1.
    unfold Qcdiv in *. rewrite Qcmult_1_l in H1.
    apply Qcmult_nonneg_nonneg; [apply (nat2Qc_nonneg 3) | done]. }
  apply for_each_inv; [apply Qcle_refl|].
  intros i s _ Hs. eexists. split; [reflexivity|]. by apply add_share_nonneg.
Qed.

Lemma NonDiatonicChords_nonneg (chord_sequence : list chord) :
  chord_sequence <> [] ->
  exists q, NonDiatonicChords.calculate chord_sequence = Ok q /\ (0 <= q)%Qc.
Proof.
  intros Hne. unfold NonDiatonicChords.calculate.
  assert (Hlen : 0 < Z.of_nat (length chord_sequence))
    by (destruct chord_sequence; [done | simpl; lia]).
  rewrite truediv_nonzero by lia. cbn [bind].
  pose proof (unit_share_nonneg _ Hlen) as Hp.
  apply for_each_inv; [apply Qcle_refl|].
  intros c s _ Hs. eexists. split; [reflexivity|]. by apply add_share_nonneg.
Qed.

Lemma ChordMelodyCongruence_nonneg (ns : list note) (melody_data : MelodyData)
    (chord_mappings : gmap string (list string)) (chord_sequence : list chord) :
  MelodyData_init ns = Ok melody_data ->
  well_formed_melody ns ->
  Forall (fun c => c ∈ dom chord_mappings) chord_sequence ->
  exists q, ChordMelodyCongruence.calculate melody_data chord_mappings
              chord_sequence = Ok q /\ (0 <= q)%Qc.
Proof.
  intros [= <-] (Hne & Hp & Hd) Hkeys.
  unfold ChordMelodyCongruence.calculate. cbn [notes duration].
  destruct (congruence_loop chord_mappings chord_sequence 0 ns Hkeys Hp Hd)
    as (score & rest & -> & _ & Hd' & Hlo & Hhi & _).
  cbn [bind fst]. rewrite sum_durations_beats.
  pose proof (beats_nonneg rest Hd').
  assert (Hpos : 0 < beats ns).
  { destruct (decide (beats ns <= 0)) as [Hz|]; [|lia].
    by apply beats_zero in Hz. }
  rewrite truediv_nonzero by lia.
  eexists. split; [reflexivity|].
  apply Zratio_in_unit_interval; lia.
Qed.

(** X15. [evaluate] returns a fitness on every sequence of at least three
    chords that are keys of both the chord table and the
    preferred-transition table, when the melody was built from a well-formed
    note list: on such a sequence none of the nine metrics raises. *)
Theorem evaluate_defined (fe : FitnessEvaluator) (ns : list note)
    (chord_sequence : list chord) :
  MelodyData_init ns = Ok (fe_melody_data fe) ->
  well_formed_melody ns ->
  (3 <= length chord_sequence)%nat ->
  Forall (fun c => c ∈ dom (chord_mappings fe)) chord_sequence ->
  Forall (fun c => c ∈ dom (preferred_transitions fe)) chord_sequence ->
  Forall (fun m => is_ok (snd m chord_sequence)) (metric_classes fe)
  /\ is_ok (evaluate fe chord_sequence).
Proof.
  intros Hmel Hwf Hlen Hcm Hpt.
  assert (Hne : chord_sequence <> []) by (intros ->; simpl in Hlen; lia).
  destruct (ChordMelodyCongruence_nonneg ns _ _ _ Hmel Hwf Hcm) as (s1 & H1 & _).
  destruct (ChordVariety_in_unit_interval _ _ Hne Hcm) as (s2 & H2 & _).
  destruct (HarmonicFlow_nonneg _ chord_sequence ltac:(lia) Hpt)
    as (s3 & H3 & _).
  destruct (FunctionalHarmony_nonneg _ Hne) as (s4 & H4 & _).
  destruct (VoiceLeading_nonneg _ chord_sequence ltac:(lia) Hcm)
    as (s5 & H5 & _).
  destruct (ChordRepetitions_at_most_1 _ Hlen) as (s6 & H6 & _).
  destruct (FunctionalProgressions_nonneg (common_progressions fe) _ Hlen)
    as (s7 & H7 & _).
  destruct (NonDiatonicChords_nonneg _ Hne) as (s8 & H8 & _).
  destruct (ParallelFifths_at_most_1 (chords_with_parallel_fifths fe)
              chord_sequence ltac:(lia)) as (s9 & H9 & _).
  split.
  - unfold metric_classes.
    repeat (apply Forall_cons; split; [cbn [snd]; unfold is_ok; eauto|]).
    apply Forall_nil_2.
  - unfold evaluate, metric_classes. cbn [for_each fst snd].
    rewrite H1, H2, H3, H4, H5, H6, H7, H8, H9. cbn [bind].
    unfold is_ok. eauto.
Qed.

Lemma evaluate_defined_witness :
  is_ok (evaluate (Main.fitness_evaluator twinkle_melody_data)
           ["Dm7"; "G7"; "Cmaj7"; "Eº7"]).
Proof.
  refine (proj2 (evaluate_defined (Main.fitness_evaluator twinkle_melody_data)
            Main.twinkle_twinkle_melody ["Dm7"; "G7"; "Cmaj7"; "Eº7"]
            _ _ _ _ _)).
  - reflexivity.
  - split; [discriminate|].
    split; repeat constructor; simpl; (discriminate || lia).
  - simpl. lia.
  - repeat constructor; apply elem_of_dom; eexists; vm_compute; reflexivity.
  - repeat constructor; apply elem_of_dom; eexists; vm_compute; reflexivity.
Defined.

Lemma evaluate_raises_below_three (fe : FitnessEvaluator)
    (chord_sequence : list chord) :
  (length chord_sequence < 3)%nat -> raises (evaluate fe chord_sequence).
Proof.
  intros Hlen.
  destruct chord_sequence as [|a [|b [|c cs]]]; [| |by apply evaluate_two_chords|].
  - unfold evaluate, metric_classes. cbn [for_each fst snd].
    destruct (ChordMelodyCongruence.calculate _ _ _); cbn [bind];
      [|unfold raises; eauto].
    destruct (ChordVariety.calculate _ _); cbn [bind]; [|unfold raises; eauto].
    destruct (HarmonicFlow.calculate _ _); cbn [bind]; [|unfold raises; eauto].
    unfold raises. eauto.
  - unfold evaluate, metric_classes. cbn [for_each fst snd].
    destruct (ChordMelodyCongruence.calculate _ _ _); cbn [bind];
      [|unfold raises; eauto].
    destruct (ChordVariety.calculate _ _); cbn [bind]; [|unfold raises; eauto].
    unfold raises. eauto.
  - simpl in Hlen. lia.
Qed.

(** ** The best individual *)

Lemma max_loop_first_maximum {A} (key : A -> result Qc) (rest : list A)
    (best : A) (best_key : Qc) (b : A) :
  key best = Ok best_key ->
  max_loop key best best_key rest = Ok b ->
  exists kb, key b = Ok kb /\ (best_key <= kb)%Qc
    /\ ((b = best /\ kb = best_key
         /\ Forall (fun x => exists k, key x = Ok k /\ (k <= kb)%Qc) rest)
        \/ (exists pre post, rest = (pre ++ b :: post)%list
              /\ (best_key < kb)%Qc
              /\ Forall (fun x => exists k, key x = Ok k /\ (k < kb)%Qc) pre
              /\ Forall (fun x => exists k, key x = Ok k /\ (k <= kb)%Qc) post)).
Proof.
  revert best best_key.
  induction rest as [|x rest IH]; intros best bk Hbest Hloop.
  - injection Hloop as <-. exists bk. split; [done|]. split; [apply Qcle_refl|].
    left. repeat split. constructor.
  - cbn [max_loop] in Hloop. destruct (key x) as [k|e] eqn:Hk; [|discriminate].
    cbn [bind] in Hloop. destruct (decide (bk < k)%Qc) as [Hlt|Hge].
    + destruct (IH x k Hk Hloop) as (kb & Hb & Hle & Hcase).
      exists kb. split; [done|].
      split; [apply Qclt_le_weak; exact (Qclt_le_trans _ _ _ Hlt Hle)|].
      right. destruct Hcase as [(-> & -> & Hrest)
                               |(pre & post & -> & Hlt' & Hpre & Hpost)].
      * exists [], rest. repeat split; try done; try constructor.
      * exists (x :: pre), post. repeat split; try done.
        -- exact (Qclt_trans _ _ _ Hlt Hlt').
        -- constructor; [|done]. exists k. split; [done | exact Hlt'].
    + apply Qcnot_lt_le in Hge.
      destruct (IH best bk Hbest Hloop) as (kb & Hb & Hle & Hcase).
      exists kb. split; [done|]. split; [done|].
      destruct Hcase as [(-> & -> & Hrest)
                        |(pre & post & -> & Hlt' & Hpre & Hpost)].
      * left. repeat split. constructor; [|done]. eauto.
      * right. exists (x :: pre), post. repeat split; try done.
        constructor; [|done]. exists k. split; [done|].
        exact (Qcle_lt_trans _ _ _ Hge Hlt').
Qed.

(** X16. When [get_chord_sequence_with_highest_fitness] returns a sequence,
    it is the first individual of highest fitness: the population splits
    into the individuals before it, all of strictly lower fitness, the
    returned sequence, and the individuals after it, none of higher
    fitness. On the empty population it raises [ValueError]. *)
Theorem best_is_first_maximum (fe : FitnessEvaluator)
    (chord_sequences : list (list chord)) (best : list chord) :
  get_chord_sequence_with_highest_fitness fe [] = Err ValueError
  /\ (get_chord_sequence_with_highest_fitness fe chord_sequences = Ok best ->
      exists before after fitness,
        chord_sequences = (before ++ best :: after)%list
        /\ evaluate fe best = Ok fitness
        /\ Forall (fun s => exists f, evaluate fe s = Ok f /\ (f < fitness)%Qc)
             before
        /\ Forall (fun s => exists f, evaluate fe s = Ok f /\ (f <= fitness)%Qc)
             after).
Proof.
  split; [reflexivity|].
  unfold get_chord_sequence_with_highest_fitness, max_by.
  destruct chord_sequences as [|s pop]; [discriminate|].
  destruct (evaluate fe s) as [k|e] eqn:Hk; [|discriminate]. cbn [bind].
  intros Hloop.
  destruct (max_loop_first_maximum _ _ _ _ _ Hk Hloop)
    as (kb & Hb & Hle & [(-> & -> & Hrest)
                        |(pre & post & -> & Hlt & Hpre & Hpost)]).
  - exists [], pop, k. repeat split; try done; try constructor.
  - exists (s :: pre), post, kb. repeat split; try done.
    constructor; [|done]. eauto.
Qed.

Lemma best_is_first_maximum_witness :
  exists before after fitness,
    [["Cmaj7"; "G7"; "G7"]; ["Dm7"; "G7"; "Cmaj7"]; ["Dm7"; "G7"; "Cmaj7"]]
    = (before ++ ["Dm7"; "G7"; "Cmaj7"] :: after)%list
    /\ evaluate (Main.fitness_evaluator twinkle_melody_data)
         ["Dm7"; "G7"; "Cmaj7"] = Ok fitness
    /\ Forall (fun s => exists f,
                 evaluate (Main.fitness_evaluator twinkle_melody_data) s = Ok f
                 /\ (f < fitness)%Qc) before
    /\ Forall (fun s => exists f,
                 evaluate (Main.fitness_evaluator twinkle_melody_data) s = Ok f
                 /\ (f <= fitness)%Qc) after.
Proof.
  apply (proj2 (best_is_first_maximum
                  (Main.fitness_evaluator twinkle_melody_data)
                  [["Cmaj7"; "G7"; "G7"]; ["Dm7"; "G7"; "Cmaj7"];
                   ["Dm7"; "G7"; "Cmaj7"]]
                  ["Dm7"; "G7"; "Cmaj7"])).
  vm_compute. reflexivity.
Defined.

(** ** Crossover *)

(** X17. The crossover of two parents of the same length, at least two
    chords, always returns a child of that length that takes every chord
    from one of the parents at the same position, its first chord from the
    first parent and its last chord from the second. *)
Theorem crossover_mixes_parents {G : Type} `{RandomSource G}
    (parent1 parent2 : list chord) :
  (2 <= length parent1)%nat -> length parent2 = length parent1 ->
  returns (G:=G) (_crossover parent1 parent2)
    (fun child =>
       length child = length parent1
       /\ child !! 0%nat = parent1 !! 0%nat
       /\ last child = last parent2
       /\ forall i, child !! i = parent1 !! i \/ child !! i = parent2 !! i).
Proof.
  intros Hlen Hsame.
  eapply returns_weaken; [by apply returns_crossover|].
  intros child (cut & Hcut & ->).
  assert (Htake : length (take cut parent1) = cut) by (rewrite length_take; lia).
  split; [rewrite length_app, Htake, length_drop; lia|]. split; [|split].
  - rewrite lookup_app_l by lia. apply lookup_take_lt. lia.
  - rewrite !last_lookup, length_app, Htake, length_drop, Hsame.
    rewrite lookup_app_r by lia. rewrite lookup_drop. f_equal. lia.
  - intros i. destruct (decide (i < cut)%nat) as [Hi|Hi].
    + left. rewrite lookup_app_l by lia. by apply lookup_take_lt.
    + right. rewrite lookup_app_r by lia. rewrite lookup_drop. f_equal. lia.
Qed.

Lemma crossover_mixes_parents_witness :
  exists child g',
    _crossover ["Cmaj7"; "Dm7"; "Em7"] ["Fmaj7"; "G7"; "Am7"] sample_tape
    = Ok (child, g')
    /\ child !! 0%nat = Some "Cmaj7" /\ last child = Some "Am7".
Proof.
  destruct (crossover_mixes_parents (G:=list N)
              ["Cmaj7"; "Dm7"; "Em7"] ["Fmaj7"; "G7"; "Am7"]
              ltac:(simpl; lia) eq_refl sample_tape)
    as (child & g' & Hrun & _ & Hfirst & Hlast & _).
  exists child, g'. split; [exact Hrun|]. split; [exact Hfirst | exact Hlast].
Defined.

(** X18. The crossover raises [ValueError] when the first parent has fewer
    than two chords (there is no cut point), and a parent crossed with
    itself gives that parent back. *)
Theorem crossover_edge_cases {G : Type} `{RandomSource G}
    (parent1 parent2 : list chord) :
  ((length parent1 < 2)%nat ->
   forall g : G, _crossover parent1 parent2 g = Err ValueError)
  /\ ensures (G:=G) (_crossover parent1 parent1) (fun child => child = parent1).
Proof.
  split.
  - intros Hlen g. unfold _crossover, rbind.
    by rewrite always_raises_random_randint by lia.
  - eapply ensures_weaken; [apply ensures_crossover|].
    intros child (cut & _ & ->). apply take_drop.
Qed.

Lemma crossover_edge_cases_witness :
  _crossover ["Cmaj7"] ["Fmaj7"; "G7"] sample_tape = Err ValueError.
Proof.
  apply (proj1 (crossover_edge_cases (G:=list N) ["Cmaj7"] ["Fmaj7"; "G7"])).
  simpl. lia.
Defined.

(** ** Mutation *)

Lemma returns_random_unit {G : Type} `{RandomSource G} :
  returns (G:=G) random_random (fun u => (0 <= u)%Qc /\ (u < 1)%Qc).
Proof.
  intros g. unfold random_random. destruct (draw g) as [r g'].
  eexists _, g'. split; [reflexivity|].
  change (2 ^ 53)%N with 9007199254740992%N.
  change (2 ^ 53) with 9007199254740992.
  assert (Hr : (r mod 9007199254740992 < 9007199254740992)%N)
    by (by apply N.mod_lt).
  set (a := Z.of_N (r mod 9007199254740992)).
  assert (Ha : 0 <= a < 9007199254740992).
  { unfold a. split; [apply N2Z.is_nonneg|]. by apply N2Z.inj_lt in Hr. }
  assert (Hpos : (0 < Qc_of_Z 9007199254740992)%Qc).
  { rewrite <- Z2Qc_inj_0. apply (proj1 (Z2Qc_inj_lt _ _)). lia. }
  pose proof (Qcinv_pos _ Hpos) as Hinv.
  unfold Qcdiv. split.
  - apply Qcmult_nonneg_nonneg; [|by apply Qclt_le_weak].
    rewrite <- Z2Qc_inj_0. apply (proj1 (Z2Qc_inj_le _ _)). lia.
  - rewrite <- (Qcmult_inv_r (Qc_of_Z 9007199254740992)) by by apply Qclt_not_eq in Hpos.
    apply Qcmult_lt_compat_r; [done|]. apply (proj1 (Z2Qc_inj_lt _ _)). lia.
Qed.

Lemma ensures_random_choice {G : Type} `{RandomSource G} {A} (xs : list A) :
  ensures (G:=G) (random_choice xs) (fun x => x ∈ xs).
Proof.
  intros g x g' Hx. destruct xs as [|x0 xs0]; [discriminate|].
  unfold random_choice in Hx. apply rbind_ok in Hx as (j & g1 & _ & Hx).
  apply lift_ok in Hx as [Hx _]. unfold index in Hx.
  destruct (_ !! j) as [y|] eqn:Ey; [|discriminate].
  injection Hx as <-. apply list_elem_of_lookup. eauto.
Qed.

(** X19. Whatever [_mutate] returns is the sequence it was given or that
    sequence with the chord at one position replaced by one of the
    available chords. *)
Theorem mutate_changes_one_position {G : Type} `{RandomSource G}
    (self : GeneticMelodyHarmonizer) (chord_sequence : list chord) :
  ensures (G:=G) (_mutate self chord_sequence)
    (fun s => s = chord_sequence
              \/ exists i c, (i < length chord_sequence)%nat
                             /\ c ∈ chords self
                             /\ s = <[i := c]> chord_sequence).
Proof.
  unfold _mutate.
  eapply ensures_bind with (P := fun _ => True); [by intros ???|].
  intros u _. destruct (decide _); [|apply ensures_ret; by left].
  intros g s g2 Hs.
  apply rbind_ok in Hs as (i & g1 & Hi & Hs).
  apply rbind_ok in Hs as (c & g1' & Hc & Hs).
  injection Hs as <- _.
  apply ensures_random_choice in Hc.
  unfold random_randint in Hi. destruct (decide _) as [|Hge]; [discriminate|].
  destruct (returns_random_randint (G:=G) 0
              (Z.of_nat (length chord_sequence) - 1) ltac:(lia) g)
    as (i' & g' & Hi' & Hrange).
  unfold random_randint in Hi'. destruct (decide _) in Hi'; [lia|].
  rewrite Hi in Hi'. injection Hi' as <- <-.
  right. exists (Z.to_nat i), c. split; [lia|]. done.
Qed.

Lemma mutate_identity {G : Type} `{RandomSource G}
    (self : GeneticMelodyHarmonizer) (chord_sequence : list chord) :
  (mutation_rate self <= 0)%Qc ->
  returns (G:=G) (_mutate self chord_sequence) (fun s => s = chord_sequence).
Proof.
  intros Hrate. unfold _mutate.
  eapply returns_bind; [apply returns_random_unit|].
  intros u [Hu _]. destruct (decide _) as [Hlt|_]; [|by apply returns_ret].
  exfalso. apply (Qclt_not_le _ _ Hlt). by eapply Qcle_trans.
Qed.

(** X20. With a mutation rate of zero or less [_mutate] always returns its
    argument unchanged, whatever the sequence and the available chords;
    with a mutation rate of one or more it always attempts a mutation, which
    raises [ValueError] on the empty sequence and [IndexError] when there is
    no chord to choose from. *)
Theorem mutate_rate_extremes {G : Type} `{RandomSource G}
    (self : GeneticMelodyHarmonizer) (chord_sequence : list chord) :
  ((mutation_rate self <= 0)%Qc ->
   returns (G:=G) (_mutate self chord_sequence) (fun s => s = chord_sequence))
  /\ ((1 <= mutation_rate self)%Qc ->
      (chord_sequence = [] ->
       forall g : G, _mutate self chord_sequence g = Err ValueError)
      /\ (chord_sequence <> [] -> chords self = [] ->
          forall g : G, _mutate self chord_sequence g = Err IndexError)).
Proof.
  split; [apply mutate_identity|].
  - intros Hrate.
    assert (Hdraw : forall g : G, exists u g',
      random_random g = Ok (u, g') /\ (u < mutation_rate self)%Qc).
    { intros g. destruct (returns_random_unit g) as (u & g' & Hu & _ & Hlt).
      exists u, g'. split; [done|]. by eapply Qclt_le_trans. }
    split.
    + intros -> g. destruct (Hdraw g) as (u & g' & Hu & Hlt).
      unfold _mutate, rbind at 1. rewrite Hu.
      destruct (decide _); [|done]. reflexivity.
    + intros Hne Hch g. destruct (Hdraw g) as (u & g' & Hu & Hlt).
      unfold _mutate, rbind at 1. rewrite Hu.
      destruct (decide _); [|done].
      destruct (returns_random_randint (G:=G) 0
                  (Z.of_nat (length chord_sequence) - 1)) with (g := g')
        as (i & g1 & Hi & _).
      { destruct chord_sequence; [done | simpl; lia]. }
      unfold rbind at 1. rewrite Hi. by rewrite Hch.
Qed.

Lemma mutate_rate_extremes_witness :
  exists g', _mutate unmutated_harmonizer ["Cmaj7"; "G7"] sample_tape
             = Ok (["Cmaj7"; "G7"], g').
Proof.
  destruct (proj1 (mutate_rate_extremes (G:=list N) unmutated_harmonizer
                     ["Cmaj7"; "G7"]) ltac:(done) sample_tape)
    as (s & g' & Hrun & ->).
  by exists g'.
Defined.

Lemma breed_spliced {G : Type} `{RandomSource G}
    (self : GeneticMelodyHarmonizer) (parents : list (list chord)) (i : nat)
    (new_population : list (list chord)) :
  (mutation_rate self <= 0)%Qc ->
  ensures (G:=G) (breed self parents i new_population)
    (bred_without_mutation parents i new_population).
Proof.
  intros Hrate g pop g' Hrun. unfold breed in Hrun.
  assert (Hidx : forall k (g1 : G) p g2,
    lift (index parents k) g1 = Ok (p, g2) -> parents !! k = Some p).
  { intros k g1 p g2 Hk. apply lift_ok in Hk as [Hk _]. unfold index in Hk.
    by destruct (parents !! k); simplify_eq. }
  assert (Hmut : forall s (g1 : G) s' g2,
    _mutate self s g1 = Ok (s', g2) -> s' = s).
  { intros s g1 s' g2 Hs.
    destruct (mutate_identity self s Hrate g1)
      as (t & g3 & Ht & ->).
    rewrite Hs in Ht. by injection Ht as -> _. }
  apply rbind_ok in Hrun as (p1 & g1 & Hp1 & Hrun).
  apply rbind_ok in Hrun as (p2 & g2 & Hp2 & Hrun).
  apply rbind_ok in Hrun as (c1 & g3 & Hc1 & Hrun).
  apply rbind_ok in Hrun as (q1 & g4 & Hq1 & Hrun).
  apply rbind_ok in Hrun as (q2 & g5 & Hq2 & Hrun).
  apply rbind_ok in Hrun as (c2 & g6 & Hc2 & Hrun).
  apply rbind_ok in Hrun as (m1 & g7 & Hm1 & Hrun).
  apply rbind_ok in Hrun as (m2 & g8 & Hm2 & Hrun).
  injection Hrun as <- _.
  apply Hidx in Hp1, Hp2, Hq1, Hq2. apply Hmut in Hm1, Hm2. subst m1 m2.
  apply ensures_crossover in Hc1, Hc2.
  rewrite Hp2 in Hq1. injection Hq1 as <-.
  rewrite Hp1 in Hq2. injection Hq2 as <-.
  exists p1, p2, c1, c2. done.
Qed.

Lemma ensures_for_eachR_indexed {G : Type} `{RandomSource G} {A St}
    (I : nat -> St -> Prop) (xs : list A) (body : A -> St -> Rand G St)
    (s : St) :
  I 0%nat s ->
  (forall k x s, xs !! k = Some x -> I k s -> ensures (body x s) (I (S k))) ->
  ensures (for_eachR xs body s) (I (length xs)).
Proof.
  intros Hs Hbody.
  assert (Hgen : forall done rest k s, xs = (done ++ rest)%list ->
    k = length done -> I k s ->
    ensures (for_eachR rest body s) (I (k + length rest)%nat)).
  { intros done rest. revert done.
    induction rest as [|x rest IH]; intros done k s0 Hxs Hk Hs0; simpl.
    - apply ensures_ret. by rewrite Nat.add_0_r.
    - eapply ensures_bind.
      + apply (Hbody k x s0); [|done].
        rewrite Hxs, Hk. by rewrite list_lookup_middle.
      + intros s' Hs'. rewrite <- Nat.add_succ_comm.
        apply (IH (done ++ [x])%list).
        * by rewrite <- app_assoc.
        * rewrite length_app. simpl. lia.
        * done. }
  by apply (Hgen [] xs 0%nat s).
Qed.

(** X21. With a mutation rate of zero or less and an even population size,
    the children are exact crossover results: in whatever population
    [_create_new_population] returns, the individuals at positions [2k] and
    [2k + 1] are the one-point crossovers of the parents at these two
    positions, in the two orders, with no chord altered. *)
Theorem create_new_population_without_mutation {G : Type} `{RandomSource G}
    (self : GeneticMelodyHarmonizer) (parents : list (list chord)) :
  (mutation_rate self <= 0)%Qc ->
  Nat.Even (population_size self) ->
  ensures (G:=G) (_create_new_population self parents)
    (fun pop =>
       length pop = population_size self
       /\ forall k, (2 * k + 1 < population_size self)%nat ->
            exists parent1 parent2 child1 child2,
              parents !! (2 * k)%nat = Some parent1
              /\ parents !! (2 * k + 1)%nat = Some parent2
              /\ pop !! (2 * k)%nat = Some child1
              /\ pop !! (2 * k + 1)%nat = Some child2
              /\ spliced parent1 parent2 child1
              /\ spliced parent2 parent1 child2).
Proof.
  intros Hrate [m Hm]. unfold _create_new_population.
  destruct (range_step2_even m) as [Hcount _].
  rewrite Hm.
  set (I := fun (n : nat) (pop : list (list chord)) =>
    length pop = (2 * n)%nat
    /\ forall k, (2 * k + 1 < 2 * n)%nat ->
         exists parent1 parent2 child1 child2,
           parents !! (2 * k)%nat = Some parent1
           /\ parents !! (2 * k + 1)%nat = Some parent2
           /\ pop !! (2 * k)%nat = Some child1
           /\ pop !! (2 * k + 1)%nat = Some child2
           /\ spliced parent1 parent2 child1
           /\ spliced parent2 parent1 child2).
  eapply ensures_weaken;
    [apply (ensures_for_eachR_indexed I)
    |intros pop HI; rewrite Hcount in HI; exact HI].
  - split; [done|]. intros k Hk. lia.
  - intros n x pop Hx [Hlen Hprev].
    assert (Hxn : x = (2 * n)%nat).
    { unfold range_step2 in Hx. rewrite list_lookup_fmap in Hx.
      destruct (seq 0 _ !! n) as [j|] eqn:Hj; [|discriminate].
      apply lookup_seq in Hj as [-> _]. by injection Hx as <-. }
    subst x.
    eapply ensures_weaken; [by apply breed_spliced|].
    intros pop' (p1 & p2 & c1 & c2 & Hp1 & Hp2 & Hc1 & Hc2 & ->).
    split; [rewrite length_app; simpl; lia|].
    intros k Hk. destruct (decide (k < n)%nat) as [Hlt|Hge].
    + destruct (Hprev k ltac:(lia)) as (a & b & c & d & ? & ? & Hc & Hd & ? & ?).
      exists a, b, c, d. repeat split; try done.
      * by apply lookup_app_l_Some.
      * by apply lookup_app_l_Some.
    + assert (k = n) by lia. subst k.
      exists p1, p2, c1, c2. repeat split; try done.
      * rewrite lookup_app_r by lia. by rewrite Hlen, Nat.sub_diag.
      * rewrite lookup_app_r by lia.
        by replace (2 * n + 1 - length pop)%nat with 1%nat by lia.
Qed.

Lemma create_new_population_without_mutation_witness :
  exists pop g',
    _create_new_population unmutated_harmonizer
      [["Cmaj7"; "Dm7"; "Em7"; "Fmaj7"]; ["G7"; "Am7"; "Bm7b5"; "C7"]]
      sample_tape = Ok (pop, g')
    /\ length pop = 2%nat.
Proof.
  destruct (_create_new_population unmutated_harmonizer
              [["Cmaj7"; "Dm7"; "Em7"; "Fmaj7"]; ["G7"; "Am7"; "Bm7b5"; "C7"]]
              sample_tape) as [[pop g']|e] eqn:E.
  - exists pop, g'. split; [reflexivity|].
    exact (proj1 (create_new_population_without_mutation (G:=list N)
                    unmutated_harmonizer _ ltac:(done)
                    ltac:(by exists 1%nat) sample_tape pop g' E)).
  - vm_compute in E. discriminate.
Defined.

(** ** What the search returns *)

Section ClosureLemmas.
Context {G : Type} `{RandomSource G}.
Variable self : GeneticMelodyHarmonizer.

Lemma ensures_candidate_sequence :
  ensures (G:=G) (_generate_random_chord_sequence self) (candidate self).
Proof.
  unfold _generate_random_chord_sequence, candidate.
  eapply ensures_weaken;
    [apply ensures_replicateR, ensures_random_choice|].
  by intros s [Hlen Hs].
Qed.

Lemma ensures_candidate_population :
  ensures (G:=G) (_initialise_population self) (Forall (candidate self)).
Proof.
  eapply ensures_weaken;
    [apply ensures_replicateR, ensures_candidate_sequence|].
  by intros pop [_ Hpop].
Qed.

Lemma ensures_candidate_breed (parents : list (list chord)) (i : nat)
    (new_population : list (list chord)) :
  Forall (candidate self) parents ->
  Forall (candidate self) new_population ->
  ensures (G:=G) (breed self parents i new_population)
    (Forall (candidate self)).
Proof.
  intros Hpar Hnew. unfold breed.
  pose proof (proj1 (Forall_forall _ _) Hpar) as Hin.
  assert (Hchild : forall a b c, a ∈ parents -> b ∈ parents -> spliced a b c ->
    ensures (G:=G) (_mutate self c) (candidate self)).
  { intros a b c Ha Hb Hc.
    destruct (Hin a Ha) as [Hla Hda]. destruct (Hin b Hb) as [Hlb Hdb].
    pose proof (spliced_length _ _ _ _ Hla Hlb Hc) as Hlc.
    pose proof (spliced_Forall _ _ _ _ Hda Hdb Hc) as Hdc.
    eapply ensures_weaken; [apply ensures_mutate|].
    intros s [Hls Hds]. split; [congruence | by apply Hds]. }
  eapply ensures_bind; [apply ensures_lift_index|]. intros p1 Hp1.
  eapply ensures_bind; [apply ensures_lift_index|]. intros p2 Hp2.
  eapply ensures_bind; [apply ensures_crossover|]. intros c1 Hc1.
  eapply ensures_bind; [apply ensures_lift_index|]. intros q1 Hq1.
  eapply ensures_bind; [apply ensures_lift_index|]. intros q2 Hq2.
  eapply ensures_bind; [apply ensures_crossover|]. intros c2 Hc2.
  eapply ensures_bind; [by apply (Hchild p1 p2 c1)|]. intros m1 Hm1.
  eapply ensures_bind; [by apply (Hchild q1 q2 c2)|]. intros m2 Hm2.
  apply ensures_ret, Forall_app. split; [done|].
  constructor; [done|]. constructor; [done|]. constructor.
Qed.

Lemma ensures_candidate_step (_population : list (list chord)) :
  Forall (candidate self) _population ->
  ensures (G:=G) (generation_step self _population) (Forall (candidate self)).
Proof.
  intros Hpop. unfold generation_step.
  pose proof (proj1 (Forall_forall _ _) Hpop) as Hin.
  eapply ensures_bind; [apply ensures_select_parents|].
  intros parents [_ Hsub].
  assert (Hpar : Forall (candidate self) parents).
  { eapply Forall_impl; [exact Hsub|]. intros p Hp. by apply Hin. }
  unfold _create_new_population.
  assert (Hgen : forall xs pop, Forall (candidate self) pop ->
    ensures (G:=G) (for_eachR xs (breed self parents) pop)
      (Forall (candidate self))).
  { induction xs as [|x xs IH]; intros pop Hp; simpl.
    - by apply ensures_ret.
    - eapply ensures_bind; [by apply ensures_candidate_breed|].
      intros pop' Hp'. by apply IH. }
  apply Hgen. constructor.
Qed.
End ClosureLemmas.

(** X22. Whatever [generate] returns is a candidate: it has two chords per
    bar and every one of its chords is one of the available chords. *)
Theorem generate_returns_candidate {G : Type} `{RandomSource G}
    (self : GeneticMelodyHarmonizer) (generations : nat) :
  ensures (G:=G) (generate self generations)
    (fun best => length best = sequence_length self
                 /\ forall c, c ∈ best -> c ∈ chords self).
Proof.
  unfold generate.
  eapply ensures_bind; [apply ensures_candidate_population|].
  intros pop Hpop.
  assert (Hevolve : forall n p, Forall (candidate self) p ->
    ensures (G:=G) (evolve self n p) (Forall (candidate self))).
  { induction n as [|n IH]; intros p Hp; simpl.
    - by apply ensures_ret.
    - eapply ensures_bind; [by apply ensures_candidate_step|].
      intros p' Hp'. by apply IH. }
  eapply ensures_bind; [by apply Hevolve|].
  intros pop' Hpop' g best g' Hbest.
  apply lift_ok in Hbest as [Hbest _]. apply max_by_elem in Hbest.
  destruct (proj1 (Forall_forall _ _) Hpop' best Hbest) as [Hlen Hdrawn].
  split; [exact Hlen|]. by apply Forall_forall.
Qed.

(** ** Configurations on which the search always raises *)

(** X23. Without a chord to choose from, [generate] raises [IndexError]
    for a melody of at least one bar and a population of at least one,
    whatever the number of generations: the first random choice fails. *)
Theorem generate_without_chords {G : Type} `{RandomSource G}
    (self : GeneticMelodyHarmonizer) (generations : nat) (g : G) :
  chords self = [] ->
  1 <= number_of_bars (melody_data self) ->
  (1 <= population_size self)%nat ->
  generate self generations g = Err IndexError.
Proof.
  intros Hch Hbars Hps.
  unfold generate, rbind at 1, _initialise_population.
  destruct (population_size self) as [|n]; [lia|]. cbn [replicateR].
  unfold rbind at 1, _generate_random_chord_sequence.
  destruct (Z.to_nat (2 * number_of_bars (melody_data self))) as [|k] eqn:Hk;
    [lia|].
  cbn [replicateR]. unfold rbind at 1. by rewrite Hch.
Qed.

Lemma generate_without_chords_witness :
  generate {| melody_data := two_bar_melody; chords := [];
              population_size := 4; mutation_rate := Main.pct 5;
              fitness_evaluator := Main.fitness_evaluator two_bar_melody |}
    10 sample_tape = Err IndexError.
Proof.
  apply (generate_without_chords (G:=list N)); [reflexivity | simpl; lia | simpl; lia].
Defined.

(** X24. With a population size of zero [generate] raises: [ValueError]
    from the maximum of the empty population when there is no generation to
    run, [IndexError] from the weighted sampling of the empty population
    otherwise. *)
Theorem generate_empty_population {G : Type} `{RandomSource G}
    (self : GeneticMelodyHarmonizer) (g : G) :
  population_size self = 0%nat ->
  generate self 0 g = Err ValueError
  /\ forall n, generate self (S n) g = Err IndexError.
Proof.
  intros Hps. unfold generate, _initialise_population. rewrite Hps.
  cbn [replicateR]. split.
  - reflexivity.
  - intros n. unfold rbind at 1. cbn [ret evolve].
    unfold rbind at 1, generation_step, rbind at 1, _select_parents.
    reflexivity.
Qed.

Lemma generate_empty_population_witness :
  generate {| melody_data := two_bar_melody; chords := Main.chords;
              population_size := 0; mutation_rate := Main.pct 5;
              fitness_evaluator := Main.fitness_evaluator two_bar_melody |}
    0 sample_tape = Err ValueError.
Proof.
  apply (generate_empty_population (G:=list N)). reflexivity.
Defined.

(** X25. For a melody of fewer than two bars no sequence of the initial
    population has three chords, [evaluate] raises on every sequence of
    fewer than three chords, and [generate] raises in every run, whatever
    the rest of the configuration. *)
Theorem generate_needs_two_bars {G : Type} `{RandomSource G}
    (self : GeneticMelodyHarmonizer) (generations : nat) :
  number_of_bars (melody_data self) < 2 ->
  (forall s, (length s < 3)%nat ->
     raises (evaluate (fitness_evaluator self) s))
  /\ ensures (G:=G) (_initialise_population self)
       (Forall (fun s => (length s < 3)%nat))
  /\ always_raises (G:=G) (generate self generations).
Proof.
  intros Hbars.
  assert (HL : (sequence_length self < 3)%nat) by (unfold sequence_length; lia).
  assert (Hinit : ensures (G:=G) (_initialise_population self)
                    (Forall (fun s => (length s < 3)%nat))).
  { eapply ensures_weaken; [apply ensures_initialise_population|].
    intros pop [_ Hpop]. eapply Forall_impl; [exact Hpop|].
    intros s Hs. simpl in Hs. lia. }
  split; [intros s Hs; by apply evaluate_raises_below_three|].
  split; [exact Hinit|].
  unfold generate. eapply always_raises_bind_r; [exact Hinit|].
  intros pop Hpop. apply evolve_then_best_raises.
  eapply Forall_impl; [exact Hpop|].
  intros s Hs. by apply evaluate_raises_below_three.
Qed.

Lemma generate_needs_two_bars_witness :
  exists e,
    generate {| melody_data := {| notes := [("C5", 2)]; duration := 2;
                                  number_of_bars := 0 |};
                chords := Main.chords; population_size := 4;
                mutation_rate := Main.pct 5;
                fitness_evaluator := Main.fitness_evaluator two_bar_melody |}
      5 sample_tape = Err e.
Proof.
  refine (proj2 (proj2 (generate_needs_two_bars (G:=list N) _ 5 _)) sample_tape).
  simpl. lia.
Defined.

(** ** Bars of a melody *)

Lemma beats_permutation (ns ns' : list note) : ns ≡ₚ ns' -> beats ns = beats ns'.
Proof. induction 1; simpl; lia. Qed.

(** X26. The bar count of a constructed melody is its duration divided by
    four, rounded down: four beats per counted bar fit into the duration and
    fewer than four beats are left over. Duration and bar count do not
    depend on the order of the notes, and non-negative durations give a
    non-negative bar count. *)
Theorem MelodyData_bar_count (ns ns' : list note) (m m' : MelodyData) :
  MelodyData_init ns = Ok m -> MelodyData_init ns' = Ok m' ->
  (4 * number_of_bars m <= duration m < 4 * number_of_bars m + 4)
  /\ (Forall (fun n => 0 <= snd n) ns -> 0 <= number_of_bars m)
  /\ (ns ≡ₚ ns' ->
      duration m = duration m' /\ number_of_bars m = number_of_bars m').
Proof.
  intros [= <-] [= <-]. cbn [duration number_of_bars].
  split; [|split].
  - pose proof (Z.div_mod (sum_durations ns) 4 ltac:(lia)).
    pose proof (Z.mod_pos_bound (sum_durations ns) 4 ltac:(lia)). lia.
  - intros Hpos. apply Z.div_pos; [|lia]. rewrite sum_durations_beats.
    induction Hpos; simpl; lia.
  - intros Hperm. rewrite !sum_durations_beats.
    by rewrite (beats_permutation _ _ Hperm).
Qed.

Lemma MelodyData_bar_count_witness :
  4 * number_of_bars two_bar_melody <= duration two_bar_melody
  < 4 * number_of_bars two_bar_melody + 4.
Proof.
  exact (proj1 (MelodyData_bar_count (notes two_bar_melody)
                  (notes two_bar_melody) two_bar_melody two_bar_melody
                  eq_refl eq_refl)).
Defined.
